(** * GTSAM hybrid inference: HybridFactor, mixtures and HybridBayesNet

    A shallow embedding of [gtsam/hybrid/HybridFactor.cpp] and of the
    operations declared in [gtsam/hybrid/HybridBayesNet.h], together with
    the scenarios of [testGaussianMixtureFactor.cpp]. *)

From Stdlib Require Import QArith ZArith NArith Bool Lia Ascii String DecimalString List
  Finite Permutation Sorted Reals Qreals Lra.
Import ListNotations.

Local Open Scope Z_scope.

(** ** Keys

    [Key] is a 64-bit unsigned integer, [DiscreteKey] a pair of a key and
    its cardinality ([std::pair<Key, size_t>]). *)

Definition Key := N.
Definition KeyVector := list Key.
Definition DiscreteKey := (Key * nat)%type.
Definition DiscreteKeys := list DiscreteKey.
Definition KeyFormatter := Key -> string.

(** ** Containers and [size_t] *)

Definition size_t_modulus : Z := 2 ^ 64.

(** [size_t] subtraction wraps around. *)
Definition size_t_sub (a b : Z) : Z := (a - b) mod size_t_modulus.

(** [i++] on a [size_t]. *)
Definition size_t_succ (i : Z) : Z := (i + 1) mod size_t_modulus.

(** [v.size()] *)
Definition size {A : Type} (v : list A) : Z := Z.of_nat (length v).

(** [v.at(i)]: [None] stands for [std::out_of_range]. *)
Definition at_ {A : Type} (v : list A) (i : Z) : option A :=
  if i <? 0 then None else nth_error v (Z.to_nat i).

(** [v.push_back(x)] *)
Definition push_back {A : Type} (v : list A) (x : A) : list A := v ++ [x].

(** [std::copy(first, last, std::back_inserter(dst))] *)
Definition copy_back_inserter {A : Type} (src dst : list A) : list A :=
  fold_left push_back src dst.

(** [std::transform(first, last, std::back_inserter(dst), f)] *)
Definition transform_back_inserter {A B : Type} (f : A -> B)
    (src : list A) (dst : list B) : list B :=
  fold_left (fun acc x => push_back acc (f x)) src dst.

(** ** Error kinds and outcomes of an operation *)

Inductive HybridError : Type :=
| MissingKey
| PrunedBranch
| WrongVariant
| MissingMeasurement
| IllFormedNode.

Inductive Outcome (A : Type) : Type :=
| Returns (a : A)
| Throws (e : HybridError).

Arguments Returns {A} a.
Arguments Throws {A} e.

Definition bindO {A B : Type} (o : Outcome A) (k : A -> Outcome B) : Outcome B :=
  match o with
  | Returns a => k a
  | Throws e => Throws e
  end.

Definition mapO {A B : Type} (f : A -> B) (o : Outcome A) : Outcome B :=
  bindO o (fun a => Returns (f a)).

(** ** HybridFactor.cpp *)

Inductive HybridCategory : Type := Discrete | Continuous | Hybrid.

Record HybridFactor : Type := mkHybridFactor {
  keys_ : KeyVector;              (* Base(keys): the factor's key vector *)
  category_ : HybridCategory;
  discreteKeys_ : DiscreteKeys;
  continuousKeys_ : KeyVector
}.

(** [KeyVector CollectKeys(const KeyVector&, const DiscreteKeys&)] *)
Definition CollectKeys (continuousKeys : KeyVector) (discreteKeys : DiscreteKeys)
    : KeyVector :=
  let allKeys := [] in
  let allKeys := copy_back_inserter continuousKeys allKeys in
  let allKeys := transform_back_inserter (fun k : DiscreteKey => fst k)
                   discreteKeys allKeys in
  allKeys.

(** [KeyVector CollectKeys(const KeyVector&, const KeyVector&)] *)
Definition CollectKeys_vectors (keys1 keys2 : KeyVector) : KeyVector :=
  let allKeys := [] in
  let allKeys := copy_back_inserter keys1 allKeys in
  let allKeys := copy_back_inserter keys2 allKeys in
  allKeys.

(** [DiscreteKeys CollectDiscreteKeys(const DiscreteKeys&, const DiscreteKeys&)] *)
Definition CollectDiscreteKeys (key1 key2 : DiscreteKeys) : DiscreteKeys :=
  let allKeys := [] in
  let allKeys := copy_back_inserter key1 allKeys in
  let allKeys := copy_back_inserter key2 allKeys in
  allKeys.

(** [HybridFactor::HybridFactor(const KeyVector &keys)] *)
Definition HybridFactor_keys (keys : KeyVector) : HybridFactor :=
  {| keys_ := keys;
     category_ := Continuous;
     discreteKeys_ := [];
     continuousKeys_ := keys |}.

(** [HybridFactor::HybridFactor(const KeyVector&, const DiscreteKeys&)] *)
Definition HybridFactor_continuous_discrete
    (continuousKeys : KeyVector) (discreteKeys : DiscreteKeys) : HybridFactor :=
  let category :=
    if (size continuousKeys =? 0) && negb (size discreteKeys =? 0) then
      Discrete
    else if negb (size continuousKeys =? 0) && (size discreteKeys =? 0) then
      Continuous
    else
      Hybrid in
  {| keys_ := CollectKeys continuousKeys discreteKeys;
     category_ := category;
     discreteKeys_ := discreteKeys;
     continuousKeys_ := continuousKeys |}.

(** [HybridFactor::HybridFactor(const DiscreteKeys &discreteKeys)] *)
Definition HybridFactor_discrete (discreteKeys : DiscreteKeys) : HybridFactor :=
  {| keys_ := CollectKeys [] discreteKeys;
     category_ := Discrete;
     discreteKeys_ := discreteKeys;
     continuousKeys_ := [] |}.

(** The three ways of constructing a node.  None of the constructor bodies
    has a [throw]: a construction attempt always returns the node. *)
Inductive Construction : Type :=
| FromKeys (keys : KeyVector)
| FromContinuousDiscrete (continuousKeys : KeyVector) (discreteKeys : DiscreteKeys)
| FromDiscrete (discreteKeys : DiscreteKeys).

Definition construct (c : Construction) : Outcome HybridFactor :=
  match c with
  | FromKeys keys => Returns (HybridFactor_keys keys)
  | FromContinuousDiscrete ck dk => Returns (HybridFactor_continuous_discrete ck dk)
  | FromDiscrete dk => Returns (HybridFactor_discrete dk)
  end.

(** The key sets handed to a construction. *)
Definition given_continuous (c : Construction) : KeyVector :=
  match c with
  | FromKeys keys => keys
  | FromContinuousDiscrete ck _ => ck
  | FromDiscrete _ => []
  end.

Definition given_discrete (c : Construction) : DiscreteKeys :=
  match c with
  | FromKeys _ => []
  | FromContinuousDiscrete _ dk => dk
  | FromDiscrete dk => dk
  end.

(** *** Printing

    [std::cout] is the text written so far; [<<] appends to it. *)

Definition ostream := string.

Definition put (out : ostream) (s : string) : ostream := (out ++ s)%string.

Definition newline : string := String (ascii_of_nat 10) EmptyString.

Definition string_empty (s : string) : bool :=
  match s with
  | EmptyString => true
  | String _ _ => false
  end.

Section Print.

Variable formatter : KeyFormatter.
Variable continuousKeys : KeyVector.
Variable discreteKeys : DiscreteKeys.

(** [for (size_t c = 0; c < continuousKeys_.size(); c++) { ... }] *)
Fixpoint print_continuous_loop (fuel : nat) (c : Z) (out : ostream) : ostream :=
  match fuel with
  | O => out
  | S fuel' =>
      if c <? size continuousKeys then
        match at_ continuousKeys c with
        | Some k =>
            let out := put out (formatter k) in
            let out :=
              if c <? size_t_sub (size continuousKeys) 1 then put out " "
              else put out (if size discreteKeys >? 0 then "; " else "") in
            print_continuous_loop fuel' (size_t_succ c) out
        | None => out
        end
      else out
  end.

(** [for (size_t d = 0; d < discreteKeys_.size(); d++) { ... }] *)
Fixpoint print_discrete_loop (fuel : nat) (d : Z) (out : ostream) : ostream :=
  match fuel with
  | O => out
  | S fuel' =>
      if d <? size discreteKeys then
        match at_ discreteKeys d with
        | Some k =>
            let out := put out (formatter (fst k)) in
            let out :=
              if d <? size_t_sub (size discreteKeys) 1 then put out " "
              else out in
            print_discrete_loop fuel' (size_t_succ d) out
        | None => out
        end
      else out
  end.

End Print.

Definition category_label (c : HybridCategory) : string :=
  match c with
  | Continuous => "Continuous "
  | Discrete => "Discrete "
  | Hybrid => "Hybrid "
  end.

(** [void HybridFactor::print(const std::string &s, const KeyFormatter&) const] *)
Definition print (f : HybridFactor) (s : string) (formatter : KeyFormatter)
    (cout : ostream) : ostream :=
  let cout := put cout (if string_empty s then "" else s ++ newline)%string in
  let cout := put cout (category_label (category_ f)) in
  let cout := put cout "[" in
  let cout := print_continuous_loop formatter (continuousKeys_ f) (discreteKeys_ f)
                (length (continuousKeys_ f)) 0 cout in
  let cout := print_discrete_loop formatter (discreteKeys_ f)
                (length (discreteKeys_ f)) 0 cout in
  put cout "]".

(** The format [print] is stated against: optional title line, label,
    bracketed key lists. *)
Definition nonempty {A : Type} (v : list A) : bool :=
  match v with
  | [] => false
  | _ :: _ => true
  end.

Definition print_format (f : HybridFactor) (s : string) (formatter : KeyFormatter)
    : string :=
  ((if string_empty s then "" else s ++ newline) ++
   category_label (category_ f) ++ "[" ++
   String.concat " " (map formatter (continuousKeys_ f)) ++
   (if nonempty (continuousKeys_ f) && nonempty (discreteKeys_ f) then "; " else "") ++
   String.concat " " (map formatter (map fst (discreteKeys_ f))) ++
   "]")%string.

(** The format as the interface description words it: the bare label,
    the bracket, the continuous keys, a [;] whenever discrete keys follow,
    the discrete keys, the closing bracket. *)
Definition category_name (c : HybridCategory) : string :=
  match c with
  | Continuous => "Continuous"
  | Discrete => "Discrete"
  | Hybrid => "Hybrid"
  end.

Definition print_as_described (f : HybridFactor) (formatter : KeyFormatter)
    : string :=
  (category_name (category_ f) ++ "[" ++
   String.concat " " (map formatter (continuousKeys_ f)) ++
   (if nonempty (discreteKeys_ f) then ";" else "") ++
   String.concat " " (map formatter (map fst (discreteKeys_ f))) ++
   "]")%string.

(** Keys of the test scenarios: [symbol_shorthand::X(j)] packs the
    character into the top byte of the key; the default formatter prints a
    symbol as its character and index and a plain key as a number. *)
Definition symbol (c : ascii) (j : N) : Key :=
  N.lor (N.shiftl (N_of_ascii c) 56) j.

Definition X (j : N) : Key := symbol "x" j.
Definition M (j : N) : Key := symbol "m" j.
Definition Z_ (j : N) : Key := symbol "z" j.

Definition decimal (n : N) : string := NilZero.string_of_uint (N.to_uint n).

Definition DefaultKeyFormatter : KeyFormatter :=
  fun k =>
    let c := N.shiftr k 56 in
    if (c =? 0)%N then decimal k
    else String (ascii_of_N c) (decimal (N.land k (N.ones 56))).

(** What the loops of [print] write for the keys still to be visited. *)
Definition separator (discreteKeys : DiscreteKeys) : string :=
  if nonempty discreteKeys then "; " else "".

Fixpoint rendered_continuous (formatter : KeyFormatter)
    (discreteKeys : DiscreteKeys) (rest : KeyVector) : string :=
  match rest with
  | [] => ""
  | k :: rest' =>
      (formatter k ++ (if nonempty rest' then " " else separator discreteKeys)
         ++ rendered_continuous formatter discreteKeys rest')%string
  end.

Fixpoint rendered_discrete (formatter : KeyFormatter) (rest : DiscreteKeys)
    : string :=
  match rest with
  | [] => ""
  | k :: rest' =>
      (formatter (fst k) ++ (if nonempty rest' then " " else "")
         ++ rendered_discrete formatter rest')%string
  end.

(** The node of [TEST(GaussianMixtureFactor, Printing)]. *)
Definition printing_test_node : HybridFactor :=
  HybridFactor_continuous_discrete [X 1; X 2] [(1%N, 2%nat)].

(** ** Decision trees *)

(** Modelled from the spec: [Assignment<Key>] and [DiscreteValues]
    (gtsam/discrete) are not among the sources; a mapping from key to
    selected value, the first entry for a key being the one that counts. *)
Definition Assignment := list (Key * nat).

Fixpoint lookup (k : Key) (a : Assignment) : option nat :=
  match a with
  | [] => None
  | (k', i) :: a' => if (k =? k')%N then Some i else lookup k a'
  end.

#[local] Unset Elimination Schemes.

(** Modelled from the spec: the [DecisionTree] template (gtsam/discrete)
    is not among the sources; every internal node branches on one discrete
    key, with one branch per value of the key, and every leaf holds a
    value. *)
Inductive DecisionTree (V : Type) : Type :=
| Leaf (v : V)
| Choice (label : Key) (branches : list (DecisionTree V)).

#[local] Set Elimination Schemes.

Arguments Leaf {V} v.
Arguments Choice {V} label branches.

Fixpoint mapi_from {A B : Type} (f : nat -> A -> B) (i : nat) (l : list A) : list B :=
  match l with
  | [] => []
  | x :: l' => f i x :: mapi_from f (S i) l'
  end.

Definition mapi {A B : Type} (f : nat -> A -> B) (l : list A) : list B :=
  mapi_from f 0 l.

(** Modelled from the spec: [valueAt(assignment)] walks from the root,
    branching on each key of the tree and ignoring the other keys of the
    assignment; it fails with [MissingKey] when the tree needs a key the
    assignment lacks.  A selected value outside the branches (excluded by
    the data model, where values lie below the cardinality) finds no leaf
    either. *)
Fixpoint valueAt {V : Type} (t : DecisionTree V) (a : Assignment) : Outcome V :=
  match t with
  | Leaf v => Returns v
  | Choice k bs =>
      match lookup k a with
      | None => Throws MissingKey
      | Some i =>
          (fix pick (bs : list (DecisionTree V)) (j : nat) : Outcome V :=
             match bs with
             | [] => Throws MissingKey
             | b :: bs' =>
                 match j with
                 | O => valueAt b a
                 | S j' => pick bs' j'
                 end
             end) bs i
      end
  end.

(** Modelled from the spec: point lookup by a partial assignment, here of
    the single key [k] to the value [i]; the choices on [k] are resolved
    and the rest of the tree is kept. *)
Fixpoint choose {V : Type} (k : Key) (i : nat) (t : DecisionTree V) : DecisionTree V :=
  match t with
  | Leaf v => Leaf v
  | Choice k' bs =>
      if (k =? k')%N then
        (fix pick (bs : list (DecisionTree V)) (j : nat) : DecisionTree V :=
           match bs with
           | [] => Choice k' []
           | b :: bs' =>
               match j with
               | O => choose k i b
               | S j' => pick bs' j'
               end
           end) bs i
      else Choice k' (map (choose k i) bs)
  end.

Fixpoint mapLeaves {V W : Type} (f : V -> W) (t : DecisionTree V) : DecisionTree W :=
  match t with
  | Leaf v => Leaf (f v)
  | Choice k bs => Choice k (map (mapLeaves f) bs)
  end.

(** Modelled from the spec: [combine(otherTree, op)] yields a tree over the
    keys of both operands whose leaf at an assignment is [op] of the two
    operands' leaves there; the second operand is looked up along the
    branches already taken in the first, so only combinations reachable
    through the branch structure of both are materialised. *)
Fixpoint combine {A B C : Type} (op : A -> B -> C)
    (f : DecisionTree A) (g : DecisionTree B) : DecisionTree C :=
  match f with
  | Leaf a => mapLeaves (op a) g
  | Choice k bs =>
      Choice k (mapi (fun i b => combine op b (choose k i g)) bs)
  end.

(** The keys a tree branches on, in order of appearance. *)
Fixpoint labels {V : Type} (t : DecisionTree V) : list Key :=
  match t with
  | Leaf _ => []
  | Choice k bs => k :: flat_map labels bs
  end.

Definition under {V : Type} (k : Key) (i : nat) (pv : Assignment * V)
    : Assignment * V :=
  ((k, i) :: fst pv, snd pv).

(** The leaves in branch order (lexicographic in the selected values),
    each with the assignment leading to it. *)
Fixpoint leaves {V : Type} (t : DecisionTree V) : list (Assignment * V) :=
  match t with
  | Leaf v => [([], v)]
  | Choice k bs =>
      concat (mapi (fun i b => map (under k i) (leaves b)) bs)
  end.

(** Every choice on [k] has exactly [card k] branches, at least one. *)
Fixpoint well_formed {V : Type} (card : Key -> nat) (t : DecisionTree V) : Prop :=
  match t with
  | Leaf _ => True
  | Choice k bs =>
      length bs = card k /\ (0 < card k)%nat /\
      (fix all (bs : list (DecisionTree V)) : Prop :=
         match bs with
         | [] => True
         | b :: bs' => well_formed card b /\ all bs'
         end) bs
  end.

(** No key is branched on twice along a path. *)
Fixpoint no_repeat {V : Type} (t : DecisionTree V) : Prop :=
  match t with
  | Leaf _ => True
  | Choice k bs =>
      (fix all (bs : list (DecisionTree V)) : Prop :=
         match bs with
         | [] => True
         | b :: bs' => (~ In k (labels b) /\ no_repeat b) /\ all bs'
         end) bs
  end.

(** Modelled from the spec: the constructor [DecisionTree(keys, values)]
    used by the tests is not among the sources; the tree over the keys in
    order, first key most significant, whose leaves are the values in
    order. *)
Fixpoint tableSize (keys : DiscreteKeys) : nat :=
  match keys with
  | [] => 1
  | (_, n) :: keys' => n * tableSize keys'
  end.

Fixpoint chunks {V : Type} (count width : nat) (values : list V) : list (list V) :=
  match count with
  | O => []
  | S count' => firstn width values :: chunks count' width (skipn width values)
  end.

Fixpoint sequence {V : Type} (l : list (option V)) : option (list V) :=
  match l with
  | [] => Some []
  | None :: _ => None
  | Some v :: l' => option_map (cons v) (sequence l')
  end.

Fixpoint fromTable {V : Type} (keys : DiscreteKeys) (values : list V)
    : option (DecisionTree V) :=
  match keys with
  | [] =>
      match values with
      | [v] => Some (Leaf v)
      | _ => None
      end
  | (k, n) :: keys' =>
      if Nat.eqb (length values) (n * tableSize keys') then
        option_map (Choice k)
          (sequence (map (fromTable keys') (chunks n (tableSize keys') values)))
      else None
  end.

(** Structural induction over decision trees, with the hypothesis for all
    branches of a choice. *)
Fixpoint DecisionTree_ind {V : Type} (P : DecisionTree V -> Prop)
    (P_leaf : forall v, P (Leaf v))
    (P_choice : forall k bs, Forall P bs -> P (Choice k bs))
    (t : DecisionTree V) : P t :=
  match t with
  | Leaf v => P_leaf v
  | Choice k bs =>
      P_choice k bs
        ((fix all (bs : list (DecisionTree V)) : Forall P bs :=
            match bs with
            | [] => Forall_nil P
            | b :: bs' => Forall_cons b (DecisionTree_ind P P_leaf P_choice b) (all bs')
            end) bs)
  end.

Fixpoint traverse {V W : Type} (f : V -> Outcome W) (t : DecisionTree V)
    : Outcome (DecisionTree W) :=
  match t with
  | Leaf v => mapO Leaf (f v)
  | Choice k bs =>
      mapO (Choice k)
        ((fix each (bs : list (DecisionTree V)) : Outcome (list (DecisionTree W)) :=
            match bs with
            | [] => Returns []
            | b :: bs' =>
                bindO (traverse f b) (fun b' => mapO (cons b') (each bs'))
            end) bs)
  end.

(** ** Continuous values and Gaussian factors *)

(** Modelled from the spec: [VectorValues] and [HybridValues]
    (gtsam/linear, gtsam/hybrid) are not among the sources; continuous
    values map a key to a vector, hybrid values pair them with a discrete
    assignment.  Numbers are exact rationals. *)
Definition Vector := list Q.
Definition Matrix := list (list Q).
Definition VectorValues := list (Key * Vector).

Record HybridValues : Type := mkHybridValues {
  continuous : VectorValues;
  discrete : Assignment
}.

Fixpoint vectorAt (k : Key) (x : VectorValues) : option Vector :=
  match x with
  | [] => None
  | (k', v) :: x' => if (k =? k')%N then Some v else vectorAt k x'
  end.

Definition dot (u v : Vector) : Q :=
  fold_right Qplus 0%Q (map (fun p => (fst p * snd p)%Q) (List.combine u v)).

Definition matvec (A : Matrix) (x : Vector) : Vector :=
  map (fun row => dot row x) A.

Definition vplus (u v : Vector) : Vector :=
  map (fun p => (fst p + snd p)%Q) (List.combine u v).

Definition vminus (u v : Vector) : Vector :=
  map (fun p => (fst p - snd p)%Q) (List.combine u v).

Definition squaredNorm (v : Vector) : Q := dot v v.

(** Modelled from the spec: [JacobianFactor] (gtsam/linear) is not among
    the sources; the factor [|A1 x1 + ... + An xn - b|^2] of the tests,
    given by its blocks and right-hand side, without noise model. *)
Record JacobianFactor : Type := mkJacobianFactor {
  terms : list (Key * Matrix);
  rhs : Vector
}.

Fixpoint applyTerms (ts : list (Key * Matrix)) (x : VectorValues) (acc : Vector)
    : Outcome Vector :=
  match ts with
  | [] => Returns acc
  | (k, A) :: ts' =>
      match vectorAt k x with
      | None => Throws MissingKey
      | Some xk => applyTerms ts' x (vplus acc (matvec A xk))
      end
  end.

(** The residual [A x - b]. *)
Definition residual (f : JacobianFactor) (x : VectorValues) : Outcome Vector :=
  mapO (fun Ax => vminus Ax (rhs f))
       (applyTerms (terms f) x (map (fun _ => 0%Q) (rhs f))).

(** Modelled from the spec: [JacobianFactor::error] is not among the
    sources and the spec leaves the continuous-factor error to the linear
    algebra layer, so the mixture's error functions below take it as an
    argument.  The least-squares errors, a multiple of the squared norm of
    the residual, are the instances used in the examples. *)
Definition scaledError (scale : Q) (f : JacobianFactor) (x : VectorValues)
    : Outcome Q :=
  mapO (fun r => Qred (scale * squaredNorm r)) (residual f x).


(** ** Mixtures *)

(** A shared pointer: an address with its pointee. *)
Definition shared_ptr (V : Type) : Type := (nat * V)%type.

(** Modelled from the spec: [GaussianMixtureFactor] and [GaussianMixture]
    (gtsam/hybrid) are not among the sources; a mixture is a hybrid node
    with a decision tree of components, where a leaf may be null and
    carries an optional log-normalizer. *)
Record MixtureLeaf (V : Type) : Type := mkMixtureLeaf {
  component : V;
  logNormalizer : option Q
}.

Arguments mkMixtureLeaf {V} component logNormalizer.
Arguments component {V} m.
Arguments logNormalizer {V} m.

Record Mixture (V : Type) : Type := mkMixture {
  node : HybridFactor;
  components : DecisionTree (option (MixtureLeaf V))
}.

Arguments mkMixture {V} node components.
Arguments node {V} m.
Arguments components {V} m.

Definition plainLeaf {V : Type} (v : V) : option (MixtureLeaf V) :=
  Some (mkMixtureLeaf v None).

(** Modelled from the spec: the constructor
    [GaussianMixtureFactor(continuousKeys, discreteKeys, factors)] of the
    tests is not among the sources; the hybrid node over both key lists
    and the tree over the discrete keys whose leaves are the given
    components in order; [None] when the number of components does not
    fit the cardinalities. *)
Definition makeMixture {V : Type} (continuousKeys : KeyVector)
    (discreteKeys : DiscreteKeys) (vs : list V) : option (Mixture V) :=
  option_map (mkMixture (HybridFactor_continuous_discrete continuousKeys discreteKeys))
             (fromTable discreteKeys (map plainLeaf vs)).

Definition GaussianFactor := shared_ptr JacobianFactor.
Definition GaussianFactorGraph := list GaussianFactor.
Definition GaussianFactorGraphTree := DecisionTree GaussianFactorGraph.
Definition GaussianMixtureFactor := Mixture GaussianFactor.

(** Modelled from the spec: the component factors of a leaf, as a factor
    graph; a null leaf has none. *)
Definition leafFactors {V : Type} (l : option (MixtureLeaf V)) : list V :=
  match l with
  | Some leaf => [component leaf]
  | None => []
  end.

Definition asGaussianFactorGraphTree {V : Type} (m : Mixture V)
    : DecisionTree (list V) :=
  mapLeaves leafFactors (components m).

(** Modelled from the spec: [operator+] on mixtures is not among the
    sources; the sum of two mixtures is [combine] with leafwise
    concatenation of the factor sets. *)
Definition sumTrees {V : Type} (s t : DecisionTree (list V)) : DecisionTree (list V) :=
  combine (@app V) s t.

Definition mixtureSum {V : Type} (a b : Mixture V) : DecisionTree (list V) :=
  sumTrees (asGaussianFactorGraphTree a) (asGaussianFactorGraphTree b).

(** Modelled from the spec: [sum += mixture] as the Sum test writes it,
    starting from the tree with one empty graph. *)
Definition emptySum {V : Type} : DecisionTree (list V) := Leaf [].

Definition addTo {V : Type} (sum : DecisionTree (list V)) (m : Mixture V)
    : DecisionTree (list V) :=
  sumTrees sum (asGaussianFactorGraphTree m).

(** Modelled from the spec: [GaussianMixtureFactor::error] is not among
    the sources; [error(HybridValues)] selects the leaf at the
    discrete assignment, fails with [PrunedBranch] on a null leaf, and
    otherwise adds the leaf's log-normalizer to the factor error. *)
Definition leafError (factorError : JacobianFactor -> VectorValues -> Outcome Q)
    (x : VectorValues) (l : option (MixtureLeaf GaussianFactor)) : Outcome Q :=
  match l with
  | None => Throws PrunedBranch
  | Some leaf =>
      mapO (fun e => match logNormalizer leaf with
                     | Some c => Qred (e + c)
                     | None => e
                     end)
           (factorError (snd (component leaf)) x)
  end.

Definition error (factorError : JacobianFactor -> VectorValues -> Outcome Q)
    (m : GaussianMixtureFactor) (v : HybridValues) : Outcome Q :=
  bindO (valueAt (components m) (discrete v))
        (leafError factorError (continuous v)).

(** Modelled from the spec: [GaussianMixtureFactor::errorTree] is not
    among the sources; [errorTree(continuous)] applies [error] leafwise
    over all discrete assignments and fails when a leaf does. *)
Definition errorTree (factorError : JacobianFactor -> VectorValues -> Outcome Q)
    (m : GaussianMixtureFactor) (x : VectorValues) : Outcome (DecisionTree Q) :=
  traverse (leafError factorError x) (components m).

(** *** The scenarios of testGaussianMixtureFactor.cpp *)

Definition zeros (rows cols : nat) : Matrix := repeat (repeat 0%Q cols) rows.

Definition identity2 : Matrix := [[1%Q; 0%Q]; [0%Q; 1%Q]].
Definition twice_identity2 : Matrix := [[2%Q; 0%Q]; [0%Q; 2%Q]].

Module SumTest.
(* TEST(GaussianMixtureFactor, Sum) *)
Definition m1 : DiscreteKey := (1%N, 2%nat).
Definition m2 : DiscreteKey := (2%N, 3%nat).
Definition jacobian12 : JacobianFactor :=
  mkJacobianFactor [(X 1, zeros 2 1); (X 2, zeros 2 2)] [0%Q; 0%Q].
Definition jacobian13 : JacobianFactor :=
  mkJacobianFactor [(X 1, zeros 2 1); (X 3, zeros 2 3)] [0%Q; 0%Q].
Definition f10 : GaussianFactor := (10%nat, jacobian12).
Definition f11 : GaussianFactor := (11%nat, jacobian12).
Definition f20 : GaussianFactor := (20%nat, jacobian13).
Definition f21 : GaussianFactor := (21%nat, jacobian13).
Definition f22 : GaussianFactor := (22%nat, jacobian13).
Definition mixtureFactorA : option GaussianMixtureFactor :=
  makeMixture [X 1; X 2] [m1] [f10; f11].
Definition mixtureFactorB : option GaussianMixtureFactor :=
  makeMixture [X 1; X 3] [m2] [f20; f21; f22].
Definition factorA : GaussianMixtureFactor :=
  mkMixture (HybridFactor_continuous_discrete [X 1; X 2] [m1])
            (Choice 1%N [Leaf (plainLeaf f10); Leaf (plainLeaf f11)]).
Definition factorB : GaussianMixtureFactor :=
  mkMixture (HybridFactor_continuous_discrete [X 1; X 3] [m2])
            (Choice 2%N [Leaf (plainLeaf f20); Leaf (plainLeaf f21);
                         Leaf (plainLeaf f22)]).
Definition mode : Assignment := [(fst m1, 1%nat); (fst m2, 2%nat)].
Definition cardinality (k : Key) : nat :=
  if (k =? 1)%N then 2%nat else 3%nat.
End SumTest.

Module ErrorTest.
(* TEST(GaussianMixtureFactor, Error) *)
Definition m1 : DiscreteKey := (1%N, 2%nat).
Definition f0 : GaussianFactor :=
  (0%nat, mkJacobianFactor [(X 1, identity2); (X 2, identity2)] [0%Q; 0%Q]).
Definition f1 : GaussianFactor :=
  (1%nat, mkJacobianFactor [(X 1, identity2); (X 2, twice_identity2)] [0%Q; 0%Q]).
Definition mixtureFactor : option GaussianMixtureFactor :=
  makeMixture [X 1; X 2] [m1] [f0; f1].
Definition factor : GaussianMixtureFactor :=
  mkMixture (HybridFactor_continuous_discrete [X 1; X 2] [m1])
            (Choice 1%N [Leaf (plainLeaf f0); Leaf (plainLeaf f1)]).
Definition continuousValues : VectorValues :=
  [(X 1, [0%Q; 0%Q]); (X 2, [1%Q; 1%Q])].
Definition discreteValues : Assignment := [(fst m1, 1%nat)].

(* A mixture whose two components have residuals of norm 1 and 2 *)
Definition g0 : GaussianFactor := (0%nat, mkJacobianFactor [(X 1, [[1%Q]])] [0%Q]).
Definition g1 : GaussianFactor := (1%nat, mkJacobianFactor [(X 1, [[2%Q]])] [0%Q]).
Definition unitMixture : option GaussianMixtureFactor :=
  makeMixture [X 1] [m1] [g0; g1].
Definition unitFactor : GaussianMixtureFactor :=
  mkMixture (HybridFactor_continuous_discrete [X 1] [m1])
            (Choice 1%N [Leaf (plainLeaf g0); Leaf (plainLeaf g1)]).
End ErrorTest.

(** A mixture is consistent with the cardinalities [card] when its tree
    has one branch per value at every choice, never branches twice on a
    key along a path, and branches on exactly the discrete keys of its
    node. *)
Definition mixture_ok {V : Type} (card : Key -> nat) (m : Mixture V) : Prop :=
  well_formed card (components m) /\
  no_repeat (components m) /\
  forall k, In k (labels (components m)) <-> In k (map fst (discreteKeys_ (node m))).

(** The cardinalities of a key list agree with [card] and are positive. *)
Definition keys_ok (card : Key -> nat) (keys : DiscreteKeys) : Prop :=
  NoDup (map fst keys) /\
  forall k n, In (k, n) keys -> card k = n /\ (0 < n)%nat.

(** ** Hybrid Bayes nets *)

(** Modelled from the spec: [GaussianConditional] (gtsam/linear) is not
    among the sources; the scalar conditional without parents of the
    mixture-model tests,
    [GaussianConditional(z, Vector1(mu), I_1x1, Isotropic::Sigma(1, sigma))]. *)
Record GaussianConditional : Type := mkGaussianConditional {
  frontal : Key;
  mean : Q;
  sigma : Q
}.

Definition GaussianMixture := Mixture GaussianConditional.

(** Modelled from the spec: [DiscreteConditional] (gtsam/discrete) is not
    among the sources; its discrete keys and the tree of its
    probabilities. *)
Record DiscreteConditional : Type := mkDiscreteConditional {
  discreteKeysOf : DiscreteKeys;
  probabilities : DecisionTree Q
}.

(** Modelled from the spec: [HybridConditional] (gtsam/hybrid) is not
    among the sources; a pure discrete, a pure Gaussian or a mixture
    conditional. *)
Inductive HybridConditional : Type :=
| DiscreteNode (d : DiscreteConditional)
| GaussianNode (g : GaussianConditional)
| MixtureNode (m : GaussianMixture).

(** A net is the vector of shared pointers to its conditionals
    ([factors_] of the base class); the conditionals live in a store and a
    pointer is an address in it.  Address 0 is the null pointer, which
    points to nothing whatever the store holds; address [i + 1] is the
    [i]-th conditional of the store. *)
Definition Store := list HybridConditional.
Definition Pointer := nat.
Definition HybridBayesNet := list Pointer.

Definition nullptr : Pointer := O.

Definition deref (store : Store) (p : Pointer) : option HybridConditional :=
  match p with
  | O => None
  | S i => nth_error store i
  end.

(** [std::make_shared]: the new conditional goes to a fresh address, never
    the null one. *)
Definition allocate (store : Store) (c : HybridConditional) : Store * Pointer :=
  (store ++ [c], S (length store)).

(** The conditionals a net points to. *)
Definition conditionals (store : Store) (net : HybridBayesNet) : list HybridConditional :=
  flat_map (fun p => match deref store p with
                     | Some c => [c]
                     | None => []
                     end) net.

Definition asDiscrete (c : HybridConditional) : option DiscreteConditional :=
  match c with
  | DiscreteNode d => Some d
  | _ => None
  end.


Definition isDiscrete (c : HybridConditional) : bool :=
  match c with
  | DiscreteNode _ => true
  | _ => false
  end.

(** *** Pruning

    The bodies of [prune] and [pruneDiscreteConditionals]
    (HybridBayesNet.cpp) are not among the sources; the header declares
    them.  The model follows the four steps of the spec. *)

(** Modelled from the spec: step (1) of [prune], the pointwise product of
    the discrete conditionals' probabilities, one tree over all discrete
    keys. *)
Definition discreteProduct (cs : list HybridConditional) : DecisionTree Q :=
  fold_left (fun joint c =>
               match asDiscrete c with
               | Some d => combine Qmult joint (probabilities d)
               | None => joint
               end) cs (Leaf 1%Q).

(** Modelled from the spec: step (2) of [prune], the [maxNrLeaves]
    assignments of highest value are kept, ties going to the assignment
    that comes first.  Insertion into a list sorted by decreasing value
    puts an element ahead of its equals; the fold enters the leaves from
    the last to the first. *)
Fixpoint insertByValue (x : Assignment * Q) (l : list (Assignment * Q))
    : list (Assignment * Q) :=
  match l with
  | [] => [x]
  | y :: l' =>
      if Qle_bool (snd y) (snd x) then x :: y :: l'
      else y :: insertByValue x l'
  end.

Definition sortByValue (l : list (Assignment * Q)) : list (Assignment * Q) :=
  fold_right insertByValue [] l.

Definition keptLeaves (maxNrLeaves : nat) (joint : DecisionTree Q)
    : list (Assignment * Q) :=
  firstn maxNrLeaves (sortByValue (leaves joint)).

(** Modelled from the spec: step (2) of [prune], all other assignments
    are marked pruned. *)
Definition discardedLeaves (maxNrLeaves : nat) (joint : DecisionTree Q)
    : list (Assignment * Q) :=
  skipn maxNrLeaves (sortByValue (leaves joint)).

Fixpoint assignment_eqb (a b : Assignment) : bool :=
  match a, b with
  | [], [] => true
  | (k, i) :: a', (k', i') :: b' =>
      (k =? k')%N && Nat.eqb i i' && assignment_eqb a' b'
  | _, _ => false
  end.

Definition isKept (kept : list (Assignment * Q)) (path : Assignment) : bool :=
  existsb (fun pv => assignment_eqb path (fst pv)) kept.

Definition total (l : list (Assignment * Q)) : Q :=
  fold_right Qplus 0%Q (map snd l).

(** Rebuild a tree, handing every leaf the assignment that leads to it. *)
Fixpoint relabel {V W : Type} (f : Assignment -> V -> W) (t : DecisionTree V)
    : DecisionTree W :=
  match t with
  | Leaf v => Leaf (f [] v)
  | Choice k bs =>
      Choice k (mapi (fun i b => relabel (fun p => f ((k, i) :: p)) b) bs)
  end.

(** Modelled from the spec: step (3) of [prune] and
    [DecisionTreeFactor pruneDiscreteConditionals(size_t maxNrLeaves)];
    the pruned leaves are marked by zero and the kept probabilities are
    renormalised to sum to one. *)
Definition prunedProbabilities (maxNrLeaves : nat) (joint : DecisionTree Q)
    : DecisionTree Q :=
  let kept := keptLeaves maxNrLeaves joint in
  let sum := total kept in
  relabel (fun path v => if isKept kept path then Qred (v / sum) else 0%Q) joint.



(** The assignment [a] contradicts no choice made along [path]: on the
    keys both mention they agree. *)
Definition compatible (a path : Assignment) : bool :=
  forallb (fun ki => match lookup (fst ki) a with
                     | Some i => Nat.eqb i (snd ki)
                     | None => true
                     end) path.

(** Modelled from the spec: the assignment of a mixture leaf was pruned
    when an assignment of the product that goes with it was discarded and
    none that goes with it was kept. *)
Definition wasPruned (kept discarded : list (Assignment * Q)) (path : Assignment)
    : bool :=
  existsb (fun pv => compatible (fst pv) path) discarded
  && negb (existsb (fun pv => compatible (fst pv) path) kept).

(** Modelled from the spec: step (4) of [prune] for one mixture, the
    leaves whose assignment was pruned become null and the others stay as
    they are. *)
Definition pruneMixture (kept discarded : list (Assignment * Q))
    (m : GaussianMixture) : GaussianMixture :=
  mkMixture (node m)
    (relabel (fun path leaf => if wasPruned kept discarded path then None else leaf)
             (components m)).

(** Modelled from the spec: the net [prune] returns.  The conditionals of
    the new net come in the order of the old: a mixture is
    copied and pruned, a Gaussian conditional is shared, and the discrete
    conditionals give way to one conditional holding the renormalised
    product, at the place of the first of them. *)
Fixpoint pruneConditionals (store : Store) (old : Store) (this : HybridBayesNet)
    (kept discarded : list (Assignment * Q)) (pruned : DiscreteConditional)
    (placed : bool) : Store * HybridBayesNet :=
  match this with
  | [] => (store, [])
  | p :: rest =>
      match deref old p with
      | Some (MixtureNode m) =>
          let (store1, q) :=
            allocate store (MixtureNode (pruneMixture kept discarded m)) in
          let (store2, net) :=
            pruneConditionals store1 old rest kept discarded pruned placed in
          (store2, q :: net)
      | Some (DiscreteNode _) =>
          if placed then pruneConditionals store old rest kept discarded pruned true
          else
            let (store1, q) := allocate store (DiscreteNode pruned) in
            let (store2, net) :=
              pruneConditionals store1 old rest kept discarded pruned true in
            (store2, q :: net)
      | Some (GaussianNode _) =>
          let (store2, net) :=
            pruneConditionals store old rest kept discarded pruned placed in
          (store2, p :: net)
      | None => pruneConditionals store old rest kept discarded pruned placed
      end
  end.


(** The discrete keys of the discrete conditionals, each once, in order
    of first appearance. *)
Definition addKey (keys : DiscreteKeys) (k : DiscreteKey) : DiscreteKeys :=
  if existsb (fun k' => (fst k' =? fst k)%N) keys then keys else keys ++ [k].

Definition unionKeys (cs : list HybridConditional) : DiscreteKeys :=
  fold_left addKey
    (flat_map (fun c => match asDiscrete c with
                        | Some d => discreteKeysOf d
                        | None => []
                        end) cs) [].

(** The state a member function runs in: the store and the receiver. *)
Record State : Type := mkState {
  store_ : Store;
  this_ : HybridBayesNet
}.

(** Modelled from the spec: [HybridBayesNet prune(size_t maxNrLeaves)],
    a non-const member in the header; the state after the call and the
    net returned.  The receiver is handed on as the spec describes it; the
    sources do not show what the body does to it. *)
Definition prune (s : State) (maxNrLeaves : nat) : State * HybridBayesNet :=
  let cs := conditionals (store_ s) (this_ s) in
  let joint := discreteProduct cs in
  let kept := keptLeaves maxNrLeaves joint in
  let discarded := discardedLeaves maxNrLeaves joint in
  let pruned := mkDiscreteConditional (unionKeys cs)
                  (prunedProbabilities maxNrLeaves joint) in
  let (store', result) :=
    pruneConditionals (store_ s) (store_ s) (this_ s) kept discarded pruned false in
  (mkState store' (this_ s), result).






Module MixtureModel.
(* The net of TEST(GaussianMixtureFactor, GaussianMixtureModel2):
   P(z | m) with means 1.0, 3.0 and sigmas 8.0, 4.0, then P(m) = 0.5/0.5. *)
Definition m : DiscreteKey := (M 0, 2%nat).
Definition z : Key := Z_ 0.
Definition c0 : GaussianConditional := mkGaussianConditional z 1 8.
Definition c1 : GaussianConditional := mkGaussianConditional z 3 4.
Definition gm : GaussianMixture :=
  mkMixture (HybridFactor_continuous_discrete [z] [m])
            (Choice (M 0) [Leaf (plainLeaf c0); Leaf (plainLeaf c1)]).
Definition mixing : DiscreteConditional :=
  mkDiscreteConditional [m] (Choice (M 0) [Leaf (1 # 2)%Q; Leaf (1 # 2)%Q]).
Definition hbn : State :=
  mkState [MixtureNode gm; DiscreteNode mixing] [1%nat; 2%nat].
(* The net of TEST(GaussianMixtureFactor, GaussianMixtureModel): the same
   means with sigma 2.0 for both components. *)
Definition equalNoise : GaussianMixture :=
  mkMixture (HybridFactor_continuous_discrete [z] [m])
            (Choice (M 0) [Leaf (plainLeaf (mkGaussianConditional z 1 2));
                           Leaf (plainLeaf (mkGaussianConditional z 3 2))]).
Definition hbnEqualNoise : State :=
  mkState [MixtureNode equalNoise; DiscreteNode mixing] [1%nat; 2%nat].
End MixtureModel.



(** *** From a Bayes net to the posterior of the modes *)

(** Modelled from the spec: [GaussianConditional::evaluate] is not among
    the sources; the density of the normal law with the conditional's mean
    and standard deviation, a real number. *)
Definition density (c : GaussianConditional) (z : R) : R :=
  (1 / (sqrt (2 * PI) * Q2R (sigma c))
   * exp (- ((z - Q2R (mean c)) ^ 2 / (2 * Q2R (sigma c) ^ 2))))%R.

(** Modelled from the spec: the factors [toFactorGraph] produces are not
    among the sources; a conditional evaluated at its measurement, as the
    tree of its likelihoods over the discrete assignments, or a
    conditional passed through unchanged. *)
Inductive Factor : Type :=
| Likelihood (values : DecisionTree R)
| Unchanged (c : HybridConditional).

Definition leafDensity (z : R) (l : option (MixtureLeaf GaussianConditional)) : R :=
  match l with
  | Some leaf => density (component leaf) z
  | None => 0%R
  end.

(** The scalar measurement of a frontal key: absent, a scalar, or of the
    wrong dimension. *)
Definition likelihoodAt (frontalKey : Key) (measurements : VectorValues)
    (unchanged : HybridConditional) (values : R -> DecisionTree R) : Outcome Factor :=
  match vectorAt frontalKey measurements with
  | None => Returns (Unchanged unchanged)
  | Some [v] => Returns (Likelihood (values (Q2R v)))
  | Some _ => Throws MissingMeasurement
  end.

(** Modelled from the spec: [toFactorGraph] for one conditional; in the
    scalar model a mixture has one continuous key, its frontal variable. *)
Definition toFactor (measurements : VectorValues) (c : HybridConditional)
    : Outcome Factor :=
  match c with
  | DiscreteNode _ => Returns (Unchanged c)
  | GaussianNode g =>
      likelihoodAt (frontal g) measurements c (fun z => Leaf (density g z))
  | MixtureNode m =>
      match continuousKeys_ (node m) with
      | [frontalKey] =>
          likelihoodAt frontalKey measurements c
            (fun z => mapLeaves (leafDensity z) (components m))
      | _ => Returns (Unchanged c)
      end
  end.

Fixpoint toFactors (measurements : VectorValues) (cs : list HybridConditional)
    : Outcome (list Factor) :=
  match cs with
  | [] => Returns []
  | c :: cs' =>
      bindO (toFactor measurements c) (fun f =>
      mapO (cons f) (toFactors measurements cs'))
  end.

(** Modelled from the spec:
    [HybridGaussianFactorGraph toFactorGraph(const VectorValues &measurements) const]
    is only declared in the header; a conditional whose frontal variable
    is measured becomes its likelihood at the measurement, normalisation
    constant included, and the others pass through unchanged. *)
Definition toFactorGraph (s : State) (measurements : VectorValues)
    : Outcome (list Factor) :=
  toFactors measurements (conditionals (store_ s) (this_ s)).

(** Modelled from the spec: the elimination engine is external and
    returns the posterior;
    for a graph all of whose factors depend on discrete keys only this is
    the product of the factors, normalised over the discrete
    assignments. *)
Definition factorValues (f : Factor) : option (DecisionTree R) :=
  match f with
  | Likelihood t => Some t
  | Unchanged (DiscreteNode d) => Some (mapLeaves Q2R (probabilities d))
  | Unchanged _ => None
  end.

Definition productOf (ts : list (DecisionTree R)) : DecisionTree R :=
  fold_left (combine Rmult) ts (Leaf 1%R).

Definition sumR (t : DecisionTree R) : R :=
  fold_right Rplus 0%R (map snd (leaves t)).

Definition normalise (t : DecisionTree R) : DecisionTree R :=
  mapLeaves (fun v => (v / sumR t)%R) t.

Definition eliminateDiscrete (graph : list Factor) : option (DecisionTree R) :=
  option_map (fun ts => normalise (productOf ts))
             (sequence (map factorValues graph)).

Module MixtureModelPosterior.
(* given.insert(z, Vector1(mu1 - mu0)) *)
Definition given : VectorValues := [(MixtureModel.z, [2%Q])].
(* the expected DiscreteConditional(m, "0.338561851224/0.661438148776") *)
Definition expected0 : R := (338561851224 / 1000000000000)%R.
Definition expected1 : R := (661438148776 / 1000000000000)%R.
Definition tolerance : R := (1 / 1000000)%R.
End MixtureModelPosterior.

(** ** HybridFactor::equals *)

Definition HybridCategory_eqb (a b : HybridCategory) : bool :=
  match a, b with
  | Discrete, Discrete => true
  | Continuous, Continuous => true
  | Hybrid, Hybrid => true
  | _, _ => false
  end.

(** [operator==] of two vectors: same size and equal elements. *)
Fixpoint vector_eqb {A : Type} (eqb : A -> A -> bool) (u v : list A) : bool :=
  match u, v with
  | [], [] => true
  | x :: u', y :: v' => eqb x y && vector_eqb eqb u' v'
  | _, _ => false
  end.

Definition DiscreteKey_eqb (a b : DiscreteKey) : bool :=
  (fst a =? fst b)%N && Nat.eqb (snd a) (snd b).

(** [dynamic_cast<const This *>(&lf)] of a reference to a HybridFactor:
    the cast to the same class yields the object. *)
Definition dynamic_cast_This (lf : HybridFactor) : option HybridFactor := Some lf.

(** [bool HybridFactor::equals(const HybridFactor &lf, double tol) const].
    [Base::equals], the comparison of the base class on the key vectors,
    is not among the sources and is a parameter. *)
Definition equals (Base_equals : KeyVector -> KeyVector -> Q -> bool)
    (this lf : HybridFactor) (tol : Q) : bool :=
  match dynamic_cast_This lf with
  | None => false
  | Some e =>
      Base_equals (keys_ this) (keys_ e) tol
      && HybridCategory_eqb (category_ this) (category_ e)
      && vector_eqb N.eqb (continuousKeys_ this) (continuousKeys_ e)
      && vector_eqb DiscreteKey_eqb (discreteKeys_ this) (discreteKeys_ e)
  end.

(** The nodes the constructors build. *)
Definition built (c : Construction) : HybridFactor :=
  match c with
  | FromKeys keys => HybridFactor_keys keys
  | FromContinuousDiscrete ck dk => HybridFactor_continuous_discrete ck dk
  | FromDiscrete dk => HybridFactor_discrete dk
  end.

(** ** Adding conditionals to a HybridBayesNet (HybridBayesNet.h) *)

(** [HybridBayesNet() = default]: no conditional, over a given store. *)
Definition emptyNet (store : Store) : State := mkState store [].

(** [void push_back(std::shared_ptr<HybridConditional> conditional)] *)
Definition HybridBayesNet_push_back (s : State) (conditional : Pointer) : State :=
  mkState (store_ s) (push_back (this_ s) conditional).

(** [void push_back(HybridConditional &&conditional)] *)
Definition HybridBayesNet_push_back_move (s : State) (conditional : HybridConditional)
    : State :=
  let (store', p) := allocate (store_ s) conditional in
  mkState store' (push_back (this_ s) p).

Section AddConditional.

(** The conditional type of the templates and its implicit conversion to a
  HybridConditional (a constructor of HybridConditional, not among the
  sources). *)
Variable CONDITIONAL : Type.
Variable convert : CONDITIONAL -> HybridConditional.

(** [template <class CONDITIONAL> IsSharedPtr<CONDITIONAL>
  push_back(const CONDITIONAL &conditional)]: the argument is a shared
  pointer to a conditional. *)
Definition HybridBayesNet_push_back_shared (s : State)
  (conditional : shared_ptr CONDITIONAL) : State :=
let (store', p) := allocate (store_ s) (convert (snd conditional)) in
mkState store' (push_back (this_ s) p).

(** [template <class CONDITIONAL> IsNotSharedPtr<CONDITIONAL>
  push_back(const CONDITIONAL &conditional)]: [address] is where
  [std::make_shared<CONDITIONAL>] puts the copy. *)
Definition HybridBayesNet_push_back_value (address : nat) (s : State)
  (conditional : CONDITIONAL) : State :=
let cond_shared_ptr : shared_ptr CONDITIONAL := (address, conditional) in
HybridBayesNet_push_back_shared s cond_shared_ptr.

(** [template <class Conditional> void emplace_back(Conditional *conditional)] *)
Definition emplace_back (s : State) (conditional : CONDITIONAL) : State :=
let (store', p) := allocate (store_ s) (convert conditional) in
mkState store' (push_back (this_ s) p).

End AddConditional.

(** Every pointer of the net is null or points into the store. *)
Definition closed (s : State) : Prop :=
  forall p, In p (this_ s) -> (p <= length (store_ s))%nat.

(** * Properties of HybridFactor *)

Section BackInserter.

Context {A B : Type}.

Lemma copy_back_inserter_app (src dst : list A) :
  copy_back_inserter src dst = dst ++ src.
Proof.
  unfold copy_back_inserter, push_back.
  revert dst; induction src as [|x src IH]; intros dst; simpl.
  - now rewrite app_nil_r.
  - rewrite IH, <- app_assoc. reflexivity.
Qed.

Lemma transform_back_inserter_app (f : A -> B) (src : list A) (dst : list B) :
  transform_back_inserter f src dst = dst ++ map f src.
Proof.
  unfold transform_back_inserter, push_back.
  revert dst; induction src as [|x src IH]; intros dst; simpl.
  - now rewrite app_nil_r.
  - rewrite IH, <- app_assoc. reflexivity.
Qed.

End BackInserter.

Lemma CollectKeys_app (ck : KeyVector) (dk : DiscreteKeys) :
  CollectKeys ck dk = ck ++ map fst dk.
Proof.
  unfold CollectKeys.
  now rewrite transform_back_inserter_app, copy_back_inserter_app.
Qed.

Lemma size_eqb_nonempty {A : Type} (v : list A) : (size v =? 0) = negb (nonempty v).
Proof. destruct v; reflexivity. Qed.

(** C1 (as stated, refuted): handing two empty key sets to the
    two-argument constructor does not raise [IllFormedNode]; the attempt
    returns a node, which the last branch of the constructor tags
    [Hybrid]. *)
Lemma construct_empty_returns :
  given_continuous (FromContinuousDiscrete [] []) = [] /\
  given_discrete (FromContinuousDiscrete [] []) = [] /\
  construct (FromContinuousDiscrete [] []) <> Throws IllFormedNode /\
  construct (FromContinuousDiscrete [] [])
  = Returns {| keys_ := []; category_ := Hybrid;
               discreteKeys_ := []; continuousKeys_ := [] |}.
Proof. repeat split; discriminate. Qed.

(** C1 (amended): no construction attempt fails, whichever constructor is
    used and whether or not the key sets are empty; the node produced
    holds exactly the continuous and discrete key sets it was given. *)
Theorem construct_total (c : Construction) :
  exists node,
    construct c = Returns node /\
    continuousKeys_ node = given_continuous c /\
    discreteKeys_ node = given_discrete c.
Proof.
  destruct c; simpl; eexists; repeat split.
Qed.

(** C2: the category assigned by the two-argument constructor depends only
    on which key sets are empty: discrete-only gives [Discrete],
    continuous-only gives [Continuous], both non-empty gives [Hybrid]. *)
Theorem category_from_nonemptiness (ck : KeyVector) (dk : DiscreteKeys) :
  (ck = [] -> dk <> [] ->
     category_ (HybridFactor_continuous_discrete ck dk) = Discrete) /\
  (ck <> [] -> dk = [] ->
     category_ (HybridFactor_continuous_discrete ck dk) = Continuous) /\
  (ck <> [] -> dk <> [] ->
     category_ (HybridFactor_continuous_discrete ck dk) = Hybrid) /\
  (forall (ck' : KeyVector) (dk' : DiscreteKeys),
     nonempty ck' = nonempty ck -> nonempty dk' = nonempty dk ->
     category_ (HybridFactor_continuous_discrete ck' dk') =
     category_ (HybridFactor_continuous_discrete ck dk)).
Proof.
  unfold HybridFactor_continuous_discrete; simpl.
  repeat split.
  - intros -> Hd. destruct dk; [contradiction|reflexivity].
  - intros Hc ->. destruct ck; [contradiction|reflexivity].
  - intros Hc Hd. destruct ck; [contradiction|]. destruct dk; [contradiction|reflexivity].
  - intros ck' dk' Hc Hd. rewrite !size_eqb_nonempty, Hc, Hd. reflexivity.
Qed.

Lemma category_from_nonemptiness_witness :
  category_ (HybridFactor_continuous_discrete [] [(1%N, 2%nat)]) = Discrete /\
  category_ (HybridFactor_continuous_discrete [X 1] []) = Continuous /\
  category_ (HybridFactor_continuous_discrete [X 1; X 2] [(1%N, 2%nat)]) = Hybrid.
Proof.
  split; [|split].
  - apply (proj1 (category_from_nonemptiness [] [(1%N, 2%nat)]));
      [reflexivity | discriminate].
  - apply (proj1 (proj2 (category_from_nonemptiness [X 1] [])));
      [discriminate | reflexivity].
  - apply (proj1 (proj2 (proj2
             (category_from_nonemptiness [X 1; X 2] [(1%N, 2%nat)]))));
      discriminate.
Defined.

(** C9: the key vector of a node built from continuous and discrete keys
    is the continuous keys followed by the identifiers of the discrete
    keys, both in the order given, with nothing removed or reordered. *)
Theorem keys_concatenation (ck : KeyVector) (dk : DiscreteKeys) :
  keys_ (HybridFactor_continuous_discrete ck dk) = ck ++ map fst dk.
Proof. simpl. apply CollectKeys_app. Qed.

Example keys_keep_duplicates :
  keys_ (HybridFactor_continuous_discrete [5; 3; 5]%N [(3%N, 2%nat); (1%N, 4%nat); (3%N, 2%nat)])
  = [5; 3; 5; 3; 1; 3]%N.
Proof. reflexivity. Qed.

(** C10: the constructor taking a plain key vector returns a node of
    category [Continuous] for every key vector, the empty one included. *)
Theorem keys_constructor_continuous (keys : KeyVector) :
  exists node,
    construct (FromKeys keys) = Returns node /\
    category_ node = Continuous /\
    node = HybridFactor_keys keys.
Proof. eexists; repeat split. Qed.

Example keys_constructor_empty :
  category_ (HybridFactor_keys []) = Continuous.
Proof. reflexivity. Qed.

(** ** Printing *)

Lemma append_assoc (a b c : string) : ((a ++ b) ++ c = a ++ (b ++ c))%string.
Proof. induction a as [|x a IH]; simpl; [reflexivity | now rewrite IH]. Qed.

Lemma append_empty_r (a : string) : (a ++ "" = a)%string.
Proof. induction a as [|x a IH]; simpl; [reflexivity | now rewrite IH]. Qed.

Lemma at_middle {A : Type} (pre : list A) (k : A) (rest : list A) :
  at_ (pre ++ k :: rest) (Z.of_nat (length pre)) = Some k.
Proof.
  unfold at_.
  destruct (Z.of_nat (length pre) <? 0) eqn:E; [apply Z.ltb_lt in E; lia|].
  rewrite Nat2Z.id, nth_error_app2 by lia.
  now rewrite Nat.sub_diag.
Qed.

Section PrintLoops.

Variable formatter : KeyFormatter.
Variable continuousKeys : KeyVector.
Variable discreteKeys : DiscreteKeys.

Hypothesis continuous_fits : size continuousKeys < size_t_modulus.
Hypothesis discrete_fits : size discreteKeys < size_t_modulus.

Lemma print_continuous_loop_run (rest pre : KeyVector) (fuel : nat) (out : ostream) :
  continuousKeys = pre ++ rest ->
  (length rest <= fuel)%nat ->
  print_continuous_loop formatter continuousKeys discreteKeys fuel
    (Z.of_nat (length pre)) out
  = (out ++ rendered_continuous formatter discreteKeys rest)%string.
Proof.
  revert pre fuel out.
  induction rest as [|k rest' IH]; intros pre fuel out Hsplit Hfuel.
  - simpl. rewrite append_empty_r.
    destruct fuel as [|fuel']; [reflexivity|]. simpl.
    assert (Hsz : size continuousKeys = Z.of_nat (length pre))
      by (unfold size; rewrite Hsplit, app_nil_r; reflexivity).
    rewrite Hsz, Z.ltb_irrefl. reflexivity.
  - destruct fuel as [|fuel']; [simpl in Hfuel; lia|].
    assert (Hsz : size continuousKeys
                  = Z.of_nat (length pre) + 1 + Z.of_nat (length rest')).
    { unfold size. rewrite Hsplit, length_app. simpl length. lia. }
    cbn [print_continuous_loop].
    replace (Z.of_nat (length pre) <? size continuousKeys) with true
      by (symmetry; apply Z.ltb_lt; lia).
    rewrite Hsplit at 1. rewrite at_middle.
    assert (Hsub : size_t_sub (size continuousKeys) 1 = size continuousKeys - 1).
    { unfold size_t_sub. apply Z.mod_small. lia. }
    assert (Hsucc : size_t_succ (Z.of_nat (length pre))
                    = Z.of_nat (length (pre ++ [k]))).
    { unfold size_t_succ. rewrite Z.mod_small by lia.
      rewrite length_app. simpl. lia. }
    rewrite Hsub, Hsucc.
    assert (Hnext : continuousKeys = (pre ++ [k]) ++ rest')
      by (rewrite <- app_assoc; exact Hsplit).
    simpl in Hfuel.
    destruct rest' as [|k' rest''].
    + replace (Z.of_nat (length pre) <? size continuousKeys - 1) with false
        by (symmetry; apply Z.ltb_ge; simpl in Hsz; lia).
      rewrite (IH (pre ++ [k]) fuel' _ Hnext) by lia.
      unfold put, separator. simpl.
      replace (size discreteKeys >? 0) with (nonempty discreteKeys)
        by (destruct discreteKeys; reflexivity).
      now rewrite !append_assoc, !append_empty_r.
    + replace (Z.of_nat (length pre) <? size continuousKeys - 1) with true
        by (symmetry; apply Z.ltb_lt; simpl length in Hsz; lia).
      rewrite (IH (pre ++ [k]) fuel' _ Hnext) by (simpl in *; lia).
      unfold put.
      cbn [rendered_continuous nonempty].
      now rewrite !append_assoc.
Qed.

Lemma print_discrete_loop_run (rest pre : DiscreteKeys) (fuel : nat) (out : ostream) :
  discreteKeys = pre ++ rest ->
  (length rest <= fuel)%nat ->
  print_discrete_loop formatter discreteKeys fuel (Z.of_nat (length pre)) out
  = (out ++ rendered_discrete formatter rest)%string.
Proof.
  revert pre fuel out.
  induction rest as [|k rest' IH]; intros pre fuel out Hsplit Hfuel.
  - simpl. rewrite append_empty_r.
    destruct fuel as [|fuel']; [reflexivity|]. simpl.
    assert (Hsz : size discreteKeys = Z.of_nat (length pre))
      by (unfold size; rewrite Hsplit, app_nil_r; reflexivity).
    rewrite Hsz, Z.ltb_irrefl. reflexivity.
  - destruct fuel as [|fuel']; [simpl in Hfuel; lia|].
    assert (Hsz : size discreteKeys
                  = Z.of_nat (length pre) + 1 + Z.of_nat (length rest')).
    { unfold size. rewrite Hsplit, length_app. simpl length. lia. }
    cbn [print_discrete_loop].
    replace (Z.of_nat (length pre) <? size discreteKeys) with true
      by (symmetry; apply Z.ltb_lt; lia).
    rewrite Hsplit at 1. rewrite at_middle.
    assert (Hsub : size_t_sub (size discreteKeys) 1 = size discreteKeys - 1).
    { unfold size_t_sub. apply Z.mod_small. lia. }
    assert (Hsucc : size_t_succ (Z.of_nat (length pre))
                    = Z.of_nat (length (pre ++ [k]))).
    { unfold size_t_succ. rewrite Z.mod_small by lia.
      rewrite length_app. simpl. lia. }
    rewrite Hsub, Hsucc.
    assert (Hnext : discreteKeys = (pre ++ [k]) ++ rest')
      by (rewrite <- app_assoc; exact Hsplit).
    simpl in Hfuel.
    destruct rest' as [|k' rest''].
    + replace (Z.of_nat (length pre) <? size discreteKeys - 1) with false
        by (symmetry; apply Z.ltb_ge; simpl in Hsz; lia).
      rewrite (IH (pre ++ [k]) fuel' _ Hnext) by lia.
      unfold put. simpl.
      now rewrite !append_assoc, !append_empty_r.
    + replace (Z.of_nat (length pre) <? size discreteKeys - 1) with true
        by (symmetry; apply Z.ltb_lt; simpl length in Hsz; lia).
      rewrite (IH (pre ++ [k]) fuel' _ Hnext) by (simpl in *; lia).
      unfold put.
      cbn [rendered_discrete nonempty].
      now rewrite !append_assoc.
Qed.

Lemma rendered_continuous_concat (ks : KeyVector) :
  rendered_continuous formatter discreteKeys ks
  = (String.concat " " (map formatter ks)
       ++ (if nonempty ks then separator discreteKeys else ""))%string.
Proof.
  induction ks as [|k [|k' ks'] IH].
  - reflexivity.
  - simpl. now rewrite append_empty_r.
  - change (rendered_continuous formatter discreteKeys (k :: k' :: ks'))
      with (formatter k ++ " " ++ rendered_continuous formatter discreteKeys (k' :: ks'))%string.
    rewrite IH.
    change (String.concat " " (map formatter (k :: k' :: ks')))
      with (formatter k ++ " " ++ String.concat " " (map formatter (k' :: ks')))%string.
    cbn [nonempty].
    now rewrite !append_assoc.
Qed.

Lemma rendered_discrete_concat (ks : DiscreteKeys) :
  rendered_discrete formatter ks = String.concat " " (map formatter (map fst ks)).
Proof.
  induction ks as [|k [|k' ks'] IH].
  - reflexivity.
  - simpl. now rewrite append_empty_r.
  - change (rendered_discrete formatter (k :: k' :: ks'))
      with (formatter (fst k) ++ " " ++ rendered_discrete formatter (k' :: ks'))%string.
    rewrite IH. reflexivity.
Qed.

Lemma print_continuous_loop_from_start (fuel : nat) (out : ostream) :
  (length continuousKeys <= fuel)%nat ->
  print_continuous_loop formatter continuousKeys discreteKeys fuel 0 out
  = (out ++ rendered_continuous formatter discreteKeys continuousKeys)%string.
Proof.
  intros Hfuel.
  exact (print_continuous_loop_run continuousKeys [] fuel out eq_refl Hfuel).
Qed.

Lemma print_discrete_loop_from_start (fuel : nat) (out : ostream) :
  (length discreteKeys <= fuel)%nat ->
  print_discrete_loop formatter discreteKeys fuel 0 out
  = (out ++ rendered_discrete formatter discreteKeys)%string.
Proof.
  intros Hfuel.
  exact (print_discrete_loop_run discreteKeys [] fuel out eq_refl Hfuel).
Qed.

(** More fuel than keys changes nothing: the loops stop at the guard. *)
Lemma print_continuous_loop_fuel (fuel : nat) (out : ostream) :
  (length continuousKeys <= fuel)%nat ->
  print_continuous_loop formatter continuousKeys discreteKeys fuel 0 out
  = print_continuous_loop formatter continuousKeys discreteKeys
      (length continuousKeys) 0 out.
Proof.
  intros Hfuel.
  rewrite (print_continuous_loop_from_start fuel out Hfuel).
  now rewrite (print_continuous_loop_from_start _ out (le_n _)).
Qed.

Lemma print_discrete_loop_fuel (fuel : nat) (out : ostream) :
  (length discreteKeys <= fuel)%nat ->
  print_discrete_loop formatter discreteKeys fuel 0 out
  = print_discrete_loop formatter discreteKeys (length discreteKeys) 0 out.
Proof.
  intros Hfuel.
  rewrite (print_discrete_loop_from_start fuel out Hfuel).
  now rewrite (print_discrete_loop_from_start _ out (le_n _)).
Qed.

End PrintLoops.

(** C8 (amended): [print] appends to the stream, in this order: the title
    [s] and a newline when [s] is not empty; the category label followed by
    one space; an opening bracket; the continuous keys separated by single
    spaces; a semicolon and a space when there are both continuous and
    discrete keys; the discrete keys separated by single spaces; a closing
    bracket.  Every key goes through the formatter handed in. *)
Theorem print_exact_format (f : HybridFactor) (s : string)
    (formatter : KeyFormatter) (cout : ostream) :
  size (continuousKeys_ f) < size_t_modulus ->
  size (discreteKeys_ f) < size_t_modulus ->
  print f s formatter cout = (cout ++ print_format f s formatter)%string.
Proof.
  intros Hc Hd. unfold print, print_format.
  rewrite print_discrete_loop_from_start by (assumption || apply le_n).
  rewrite print_continuous_loop_from_start by (assumption || apply le_n).
  rewrite rendered_continuous_concat, rendered_discrete_concat.
  unfold put.
  destruct (continuousKeys_ f) as [|c cs]; cbn [nonempty andb];
    now rewrite !append_assoc.
Qed.

Lemma print_exact_format_witness :
  (print printing_test_node "" DefaultKeyFormatter ""
   = "" ++ print_format printing_test_node "" DefaultKeyFormatter)%string.
Proof.
  apply (print_exact_format printing_test_node ""%string DefaultKeyFormatter ""%string);
    vm_compute; reflexivity.
Defined.

Example print_test_output :
  (print printing_test_node "" DefaultKeyFormatter "" = "Hybrid [x1 x2; 1]")%string.
Proof. vm_compute. reflexivity. Qed.

(** C8 (as stated, refuted): on the node of the printing test the text
    written is not the bare label, bracket, keys, [;], keys, bracket. *)
Lemma print_differs_from_described :
  (print printing_test_node "" DefaultKeyFormatter "" = "Hybrid [x1 x2; 1]")%string /\
  print_as_described printing_test_node DefaultKeyFormatter = "Hybrid[x1 x2;1]"%string /\
  (print printing_test_node "" DefaultKeyFormatter "")%string
  <> print_as_described printing_test_node DefaultKeyFormatter.
Proof.
  split; [vm_compute; reflexivity|].
  split; [vm_compute; reflexivity|].
  vm_compute. discriminate.
Qed.

(** A node with discrete keys only: no semicolon is written although
    discrete keys follow the bracket. *)
Example print_discrete_only :
  (print (HybridFactor_discrete [(M 0, 2%nat); (M 1, 3%nat)]) "" DefaultKeyFormatter ""
   = "Discrete [m0 m1]")%string.
Proof. vm_compute. reflexivity. Qed.

(** A non-empty title comes first, on a line of its own. *)
Example print_with_title :
  (print (HybridFactor_keys [X 0]) "factor" DefaultKeyFormatter ""
   = "factor" ++ newline ++ "Continuous [x0]")%string.
Proof. vm_compute. reflexivity. Qed.

(** * Decision trees *)

Section Mapi.

Context {A B : Type}.

Lemma nth_error_mapi_from (f : nat -> A -> B) (l : list A) (s i : nat) :
nth_error (mapi_from f s l) i = option_map (f (s + i)%nat) (nth_error l i).
Proof.
revert s i; induction l as [|x l IH]; intros s i.
- destruct i; reflexivity.
- destruct i as [|i]; simpl.
  + now rewrite Nat.add_0_r.
  + rewrite IH. now rewrite Nat.add_succ_r.
Qed.

Lemma nth_error_mapi (f : nat -> A -> B) (l : list A) (i : nat) :
nth_error (mapi f l) i = option_map (f i) (nth_error l i).
Proof. unfold mapi. now rewrite nth_error_mapi_from. Qed.

Lemma length_mapi_from (f : nat -> A -> B) (l : list A) (s : nat) :
length (mapi_from f s l) = length l.
Proof. revert s; induction l as [|x l IH]; intros s; simpl; [|rewrite IH]; reflexivity. Qed.

Lemma length_mapi (f : nat -> A -> B) (l : list A) :
length (mapi f l) = length l.
Proof. apply length_mapi_from. Qed.

Lemma In_mapi (f : nat -> A -> B) (l : list A) (y : B) :
In y (mapi f l) <-> exists i x, nth_error l i = Some x /\ y = f i x.
Proof.
split.
- intros Hin. apply In_nth_error in Hin. destruct Hin as [i Hi].
  rewrite nth_error_mapi in Hi.
  destruct (nth_error l i) as [x|] eqn:E; [|discriminate].
  exists i, x. split; [assumption|]. simpl in Hi. congruence.
- intros (i & x & Hi & ->).
  apply (nth_error_In _ i). rewrite nth_error_mapi, Hi. reflexivity.
Qed.

End Mapi.

Section TreeEquations.

Context {V : Type}.

Lemma valueAt_Choice (k : Key) (bs : list (DecisionTree V)) (a : Assignment) :
valueAt (Choice k bs) a =
match lookup k a with
| None => Throws MissingKey
| Some i =>
    match nth_error bs i with
    | Some b => valueAt b a
    | None => Throws MissingKey
    end
end.
Proof.
simpl. destruct (lookup k a) as [i|]; [|reflexivity].
revert i; induction bs as [|b bs IH]; intros i.
- destruct i; reflexivity.
- destruct i as [|i]; [reflexivity|]. apply IH.
Qed.

Lemma choose_Choice (k : Key) (i : nat) (k' : Key) (bs : list (DecisionTree V)) :
choose k i (Choice k' bs) =
if (k =? k')%N then
  match nth_error bs i with
  | Some b => choose k i b
  | None => Choice k' []
  end
else Choice k' (map (choose k i) bs).
Proof.
simpl. destruct (k =? k')%N; [|reflexivity].
match goal with
| |- ?pick bs i = _ =>
    enough (H : forall j, pick bs j =
                          match nth_error bs j with
                          | Some b => choose k i b
                          | None => Choice k' []
                          end) by apply H
end.
induction bs as [|b bs IH]; intros j.
- destruct j; reflexivity.
- destruct j as [|j]; [reflexivity|]. apply IH.
Qed.

Lemma well_formed_Choice (card : Key -> nat) (k : Key) (bs : list (DecisionTree V)) :
well_formed card (Choice k bs) <->
length bs = card k /\ (0 < card k)%nat /\ Forall (well_formed card) bs.
Proof.
simpl.
assert (H : forall l : list (DecisionTree V),
           (fix all (bs : list (DecisionTree V)) : Prop :=
              match bs with
              | [] => True
              | b :: bs' => well_formed card b /\ all bs'
              end) l <-> Forall (well_formed card) l).
{ induction l as [|b l IH]; split; intros H.
  - constructor.
  - exact I.
  - destruct H as [Hb Hl]. constructor; [exact Hb | now apply IH].
  - inversion H; subst. split; [assumption | now apply IH]. }
rewrite H. reflexivity.
Qed.

Lemma no_repeat_Choice (k : Key) (bs : list (DecisionTree V)) :
no_repeat (Choice k bs) <->
Forall (fun b => ~ In k (labels b) /\ no_repeat b) bs.
Proof.
simpl. induction bs as [|b bs IH]; split; intros H.
- constructor.
- exact I.
- destruct H as [Hb Hl]. constructor; [exact Hb | now apply IH].
- inversion H; subst. split; [assumption | now apply IH].
Qed.

End TreeEquations.

Lemma valueAt_mapLeaves {V W : Type} (f : V -> W) (t : DecisionTree V) (a : Assignment) :
  valueAt (mapLeaves f t) a = mapO f (valueAt t a).
Proof.
  induction t as [v|k bs IH] using DecisionTree_ind.
  - reflexivity.
  - change (mapLeaves f (Choice k bs)) with (Choice k (map (mapLeaves f) bs)).
    rewrite !valueAt_Choice.
    destruct (lookup k a) as [i|]; [|reflexivity].
    rewrite nth_error_map.
    destruct (nth_error bs i) as [b|] eqn:E; [|reflexivity].
    simpl. rewrite Forall_forall in IH. apply IH.
    eapply nth_error_In; eassumption.
Qed.

(** Fixing a key to the value the assignment gives it does not change
    what the assignment finds. *)
Lemma valueAt_choose {V : Type} (k : Key) (i : nat) (t : DecisionTree V) (a : Assignment) :
  lookup k a = Some i ->
  valueAt (choose k i t) a = valueAt t a.
Proof.
  intros Hk.
  induction t as [v|k' bs IH] using DecisionTree_ind.
  - reflexivity.
  - rewrite Forall_forall in IH.
    rewrite choose_Choice. destruct (N.eqb_spec k k') as [<-|Hne].
    + rewrite (valueAt_Choice k bs), Hk.
      destruct (nth_error bs i) as [b|] eqn:E.
      * apply IH. eapply nth_error_In; eassumption.
      * rewrite valueAt_Choice, Hk. destruct i; reflexivity.
    + rewrite !valueAt_Choice.
      destruct (lookup k' a) as [j|]; [|reflexivity].
      rewrite nth_error_map.
      destruct (nth_error bs j) as [b|] eqn:E; [|reflexivity].
      simpl. apply IH. eapply nth_error_In; eassumption.
Qed.

(** The leaf of a combined tree is [op] of the operands' leaves. *)
Lemma valueAt_combine {A B C : Type} (op : A -> B -> C)
    (f : DecisionTree A) (g : DecisionTree B) (a : Assignment) :
  valueAt (combine op f g) a =
  bindO (valueAt f a) (fun x => mapO (op x) (valueAt g a)).
Proof.
  revert g.
  induction f as [v|k bs IH] using DecisionTree_ind; intros g.
  - simpl. apply valueAt_mapLeaves.
  - rewrite Forall_forall in IH.
    change (combine op (Choice k bs) g)
      with (Choice k (mapi (fun i b => combine op b (choose k i g)) bs)).
    rewrite !valueAt_Choice.
    destruct (lookup k a) as [i|] eqn:Hk; [|reflexivity].
    rewrite nth_error_mapi.
    destruct (nth_error bs i) as [b|] eqn:E; [|reflexivity].
    simpl. rewrite IH by (eapply nth_error_In; eassumption).
    now rewrite valueAt_choose.
Qed.

(** ** The keys of combined trees *)

Lemma labels_mapLeaves {V W : Type} (f : V -> W) (t : DecisionTree V) :
  labels (mapLeaves f t) = labels t.
Proof.
  induction t as [v|k bs IH] using DecisionTree_ind; [reflexivity|].
  simpl. f_equal.
  induction IH as [|b bs Hb _ IHbs]; [reflexivity|].
  simpl. now rewrite Hb, IHbs.
Qed.

Lemma labels_choose_incl {V : Type} (k : Key) (i : nat) (t : DecisionTree V) (x : Key) :
  In x (labels (choose k i t)) -> In x (labels t).
Proof.
  induction t as [v|k' bs IH] using DecisionTree_ind; [trivial|].
  rewrite Forall_forall in IH.
  rewrite choose_Choice. destruct (k =? k')%N.
  - destruct (nth_error bs i) as [b|] eqn:E.
    + intros Hx. simpl. right. apply in_flat_map. exists b.
      assert (Hb : In b bs) by (eapply nth_error_In; eassumption).
      split; [exact Hb | apply IH; assumption].
    + simpl. intros [->|[]]. now left.
  - simpl. intros [->|Hx]; [now left|]. right.
    apply in_flat_map in Hx. destruct Hx as (b' & Hb' & Hx).
    apply in_map_iff in Hb'. destruct Hb' as (b & <- & Hb).
    apply in_flat_map. exists b. split; [exact Hb | now apply IH].
Qed.

Lemma choose_absent {V : Type} (k : Key) (i : nat) (t : DecisionTree V) :
  ~ In k (labels t) -> choose k i t = t.
Proof.
  induction t as [v|k' bs IH] using DecisionTree_ind; [reflexivity|].
  intros Hk. rewrite choose_Choice.
  destruct (N.eqb_spec k k') as [->|Hne]; [exfalso; apply Hk; now left|].
  f_equal.
  assert (Hbs : forall b, In b bs -> ~ In k (labels b)).
  { intros b Hb Hin. apply Hk. simpl. right. apply in_flat_map. now exists b. }
  clear Hk. induction IH as [|b bs Hb _ IHbs]; [reflexivity|].
  simpl. rewrite Hb by (apply Hbs; now left).
  rewrite IHbs; [reflexivity|]. intros b' Hb'. apply Hbs. now right.
Qed.

Lemma well_formed_choose {V : Type} (card : Key -> nat) (k : Key) (i : nat)
    (t : DecisionTree V) :
  (i < card k)%nat -> well_formed card t -> well_formed card (choose k i t).
Proof.
  intros Hi.
  induction t as [v|k' bs IH] using DecisionTree_ind; [trivial|].
  rewrite Forall_forall in IH.
  intros Hwf. apply well_formed_Choice in Hwf. destruct Hwf as (Hlen & Hpos & Hall).
  rewrite Forall_forall in Hall.
  rewrite choose_Choice. destruct (N.eqb_spec k k') as [->|Hne].
  - destruct (nth_error bs i) as [b|] eqn:E.
    + assert (Hb : In b bs) by (eapply nth_error_In; eassumption). auto.
    + apply nth_error_None in E. lia.
  - apply well_formed_Choice. rewrite length_map. repeat split; try assumption.
    apply Forall_forall. intros b' Hb'.
    apply in_map_iff in Hb'. destruct Hb' as (b & <- & Hb). auto.
Qed.

Lemma no_repeat_choose {V : Type} (k : Key) (i : nat) (t : DecisionTree V) :
  no_repeat t -> no_repeat (choose k i t).
Proof.
  induction t as [v|k' bs IH] using DecisionTree_ind; [trivial|].
  rewrite Forall_forall in IH.
  intros Hnr. apply no_repeat_Choice in Hnr. rewrite Forall_forall in Hnr.
  rewrite choose_Choice. destruct (k =? k')%N.
  - destruct (nth_error bs i) as [b|] eqn:E.
    + assert (Hb : In b bs) by (eapply nth_error_In; eassumption).
      apply IH; [exact Hb | apply Hnr, Hb].
    + apply no_repeat_Choice. constructor.
  - apply no_repeat_Choice. apply Forall_forall. intros b' Hb'.
    apply in_map_iff in Hb'. destruct Hb' as (b & <- & Hb).
    destruct (Hnr b Hb) as [Hk' Hb_nr]. split; [|auto].
    intros Hin. apply Hk'. eapply labels_choose_incl; eassumption.
Qed.

(** A key of the tree other than [k] survives fixing [k] to a suitable
    value. *)
Lemma labels_choose_some {V : Type} (card : Key -> nat) (k : Key)
    (t : DecisionTree V) (x : Key) :
  well_formed card t -> no_repeat t -> (0 < card k)%nat ->
  x <> k -> In x (labels t) ->
  exists i, (i < card k)%nat /\ In x (labels (choose k i t)).
Proof.
  intros Hwf Hnr Hpos Hx.
  induction t as [v|k' bs IH] using DecisionTree_ind; [intros []|].
  rewrite Forall_forall in IH.
  apply well_formed_Choice in Hwf. destruct Hwf as (Hlen & Hpos' & Hall).
  rewrite Forall_forall in Hall.
  apply no_repeat_Choice in Hnr. rewrite Forall_forall in Hnr.
  intros Hin. destruct Hin as [Hhead|Hin].
  - subst k'. exists 0%nat. split; [assumption|].
    rewrite choose_Choice.
    destruct (N.eqb_spec k x) as [Heq|_]; [congruence|]. now left.
  - apply in_flat_map in Hin. destruct Hin as (b & Hb & Hin).
    destruct (N.eqb_spec k k') as [<-|Hne].
    + destruct (In_nth_error _ _ Hb) as [j Hj].
      exists j. split.
      * rewrite <- Hlen. apply nth_error_Some. congruence.
      * rewrite choose_Choice, N.eqb_refl, Hj.
        rewrite choose_absent by (apply Hnr, Hb). exact Hin.
    + destruct (IH b Hb (Hall b Hb) (proj2 (Hnr b Hb)) Hin) as (i & Hi & Hini).
      exists i. split; [assumption|].
      rewrite choose_Choice.
      destruct (N.eqb_spec k k') as [Heq|_]; [congruence|].
      simpl. right. apply in_flat_map. exists (choose k i b).
      split; [now apply in_map | assumption].
Qed.

Section CombineLabels.

Context {A B C : Type}.
Variable op : A -> B -> C.

Lemma labels_combine_incl (f : DecisionTree A) (g : DecisionTree B) (x : Key) :
In x (labels (combine op f g)) -> In x (labels f) \/ In x (labels g).
Proof.
revert g.
induction f as [v|k bs IH] using DecisionTree_ind; intros g.
- simpl. rewrite labels_mapLeaves. now right.
- rewrite Forall_forall in IH.
  change (combine op (Choice k bs) g)
    with (Choice k (mapi (fun i b => combine op b (choose k i g)) bs)).
  simpl. intros [->|Hin]; [left; now left|].
  apply in_flat_map in Hin. destruct Hin as (c & Hc & Hin).
  apply In_mapi in Hc. destruct Hc as (i & b & Hb & ->).
  assert (Hbin : In b bs) by (eapply nth_error_In; eassumption).
  destruct (IH b Hbin _ Hin) as [Hl|Hr].
  + left. right. apply in_flat_map. now exists b.
  + right. eapply labels_choose_incl; eassumption.
Qed.

Lemma labels_combine_left (f : DecisionTree A) (g : DecisionTree B) (x : Key) :
In x (labels f) -> In x (labels (combine op f g)).
Proof.
revert g.
induction f as [v|k bs IH] using DecisionTree_ind; intros g; [intros []|].
rewrite Forall_forall in IH.
change (combine op (Choice k bs) g)
  with (Choice k (mapi (fun i b => combine op b (choose k i g)) bs)).
simpl. intros [->|Hin]; [now left|]. right.
apply in_flat_map in Hin. destruct Hin as (b & Hb & Hin).
destruct (In_nth_error _ _ Hb) as [i Hi].
apply in_flat_map. exists (combine op b (choose k i g)). split.
- apply In_mapi. now exists i, b.
- now apply IH.
Qed.

Lemma labels_combine_right (card : Key -> nat)
  (f : DecisionTree A) (g : DecisionTree B) (x : Key) :
well_formed card f -> well_formed card g -> no_repeat g ->
In x (labels g) -> In x (labels (combine op f g)).
Proof.
revert g.
induction f as [v|k bs IH] using DecisionTree_ind; intros g Hf Hg Hnr Hin.
- simpl. now rewrite labels_mapLeaves.
- rewrite Forall_forall in IH.
  apply well_formed_Choice in Hf. destruct Hf as (Hlen & Hpos & Hall).
  rewrite Forall_forall in Hall.
  change (combine op (Choice k bs) g)
    with (Choice k (mapi (fun i b => combine op b (choose k i g)) bs)).
  destruct (N.eq_dec x k) as [->|Hne]; [now left|].
  destruct (labels_choose_some card k g x Hg Hnr Hpos Hne Hin) as (i & Hi & Hini).
  destruct (nth_error bs i) as [b|] eqn:E;
    [|apply nth_error_None in E; lia].
  assert (Hb : In b bs) by (eapply nth_error_In; eassumption).
  simpl. right. apply in_flat_map.
  exists (combine op b (choose k i g)). split.
  + apply In_mapi. now exists i, b.
  + apply IH; auto using well_formed_choose, no_repeat_choose.
Qed.

End CombineLabels.

(** ** Trees built from a table *)

Lemma sequence_Some {V : Type} (l : list (option V)) (vs : list V) :
  sequence l = Some vs -> l = map Some vs.
Proof.
  revert vs; induction l as [|o l IH]; intros vs H.
  - simpl in H. injection H as <-. reflexivity.
  - simpl in H. destruct o as [v|]; [|discriminate].
    destruct (sequence l) as [vs'|]; [|discriminate].
    simpl in H. injection H as <-. simpl. f_equal. now apply IH.
Qed.

Lemma length_chunks {V : Type} (count width : nat) (values : list V) :
  length (chunks count width values) = count.
Proof.
  revert values; induction count as [|c IH]; intros values; simpl;
    [|rewrite IH]; reflexivity.
Qed.

Lemma fromTable_branches {V : Type} (k : Key) (n : nat) (keys : DiscreteKeys)
    (values : list V) (t : DecisionTree V) :
  fromTable ((k, n) :: keys) values = Some t ->
  exists bs, t = Choice k bs /\ length bs = n /\
             forall b, In b bs -> exists chunk, fromTable keys chunk = Some b.
Proof.
  simpl. destruct (Nat.eqb _ _); [|discriminate].
  destruct (sequence _) as [bs|] eqn:E; [|discriminate].
  simpl. intros H. injection H as <-.
  apply sequence_Some in E.
  exists bs. split; [reflexivity|]. split.
  - apply (f_equal (@length _)) in E.
    rewrite !length_map, length_chunks in E. congruence.
  - intros b Hb.
    assert (Hin : In (Some b) (map Some bs)) by now apply in_map.
    rewrite <- E in Hin. apply in_map_iff in Hin.
    destruct Hin as (chunk & Hchunk & _). now exists chunk.
Qed.

Lemma fromTable_ok {V : Type} (card : Key -> nat) (keys : DiscreteKeys)
    (values : list V) (t : DecisionTree V) :
  keys_ok card keys ->
  fromTable keys values = Some t ->
  well_formed card t /\ no_repeat t /\
  forall x, In x (labels t) <-> In x (map fst keys).
Proof.
  revert values t.
  induction keys as [|[k n] keys IH]; intros values t [Hnd Hcard] Hbuild.
  - simpl in Hbuild. destruct values as [|v [|]]; try discriminate.
    injection Hbuild as <-. simpl. repeat split; trivial.
  - destruct (fromTable_branches k n keys values t Hbuild) as (bs & -> & Hlen & Hbs).
    simpl in Hnd. inversion Hnd as [|? ? Hfresh Hnd']; subst.
    assert (Hok : keys_ok card keys).
    { split; [assumption|]. intros k' n' Hin. apply Hcard. now right. }
    destruct (Hcard k (length bs) (or_introl eq_refl)) as [Hk Hpos].
    assert (Hall : forall b, In b bs ->
              well_formed card b /\ no_repeat b /\
              forall x, In x (labels b) <-> In x (map fst keys)).
    { intros b Hb. destruct (Hbs b Hb) as [chunk Hchunk]. eapply IH; eassumption. }
    split; [|split].
    + apply well_formed_Choice. repeat split; try congruence.
      apply Forall_forall. intros b Hb. apply (Hall b Hb).
    + apply no_repeat_Choice. apply Forall_forall. intros b Hb.
      destruct (Hall b Hb) as (_ & Hnr & Hlabels). split; [|assumption].
      intros Hin. apply Hfresh. now apply Hlabels.
    + intros x. simpl. split.
      * intros [->|Hin]; [now left|]. right.
        apply in_flat_map in Hin. destruct Hin as (b & Hb & Hin).
        now apply (Hall b Hb).
      * intros [->|Hin]; [now left|]. right.
        destruct bs as [|b bs']; [simpl in Hpos; lia|].
        apply in_flat_map. exists b. split; [now left|].
        apply (Hall b); [now left | assumption].
Qed.

(** A mixture made by the constructor from well-formed keys is
    consistent. *)
Lemma makeMixture_ok {V : Type} (card : Key -> nat) (ck : KeyVector)
    (dk : DiscreteKeys) (vs : list V) (m : Mixture V) :
  keys_ok card dk ->
  makeMixture ck dk vs = Some m ->
  mixture_ok card m /\ discreteKeys_ (node m) = dk /\ continuousKeys_ (node m) = ck.
Proof.
  intros Hok. unfold makeMixture.
  destruct (fromTable dk (map plainLeaf vs)) as [t|] eqn:E; [|discriminate].
  simpl. intros H. injection H as <-.
  destruct (fromTable_ok card dk _ t Hok E) as (Hwf & Hnr & Hlabels).
  repeat split; simpl; try assumption; apply Hlabels.
Qed.

(** * Sum of two mixture factors *)

Lemma well_formed_mapLeaves {V W : Type} (card : Key -> nat) (f : V -> W)
    (t : DecisionTree V) :
  well_formed card t -> well_formed card (mapLeaves f t).
Proof.
  induction t as [v|k bs IH] using DecisionTree_ind; [trivial|].
  rewrite Forall_forall in IH.
  intros Hwf. apply well_formed_Choice in Hwf. destruct Hwf as (Hlen & Hpos & Hall).
  rewrite Forall_forall in Hall.
  change (mapLeaves f (Choice k bs)) with (Choice k (map (mapLeaves f) bs)).
  apply well_formed_Choice. rewrite length_map. repeat split; try assumption.
  apply Forall_forall. intros b' Hb'.
  apply in_map_iff in Hb'. destruct Hb' as (b & <- & Hb). auto.
Qed.

Lemma no_repeat_mapLeaves {V W : Type} (f : V -> W) (t : DecisionTree V) :
  no_repeat t -> no_repeat (mapLeaves f t).
Proof.
  induction t as [v|k bs IH] using DecisionTree_ind; [trivial|].
  rewrite Forall_forall in IH.
  intros Hnr. apply no_repeat_Choice in Hnr. rewrite Forall_forall in Hnr.
  change (mapLeaves f (Choice k bs)) with (Choice k (map (mapLeaves f) bs)).
  apply no_repeat_Choice. apply Forall_forall. intros b' Hb'.
  apply in_map_iff in Hb'. destruct Hb' as (b & <- & Hb).
  rewrite labels_mapLeaves. destruct (Hnr b Hb). auto.
Qed.

(** C5: the sum of two mixture factors branches on exactly the discrete
    keys of either operand, and at every assignment at which both operands
    have a leaf its leaf is the factors of the first operand's leaf
    followed by those of the second's, each operand being looked up with
    the keys it branches on; where an operand has no leaf, neither has the
    sum. *)
Theorem mixture_sum_leafwise {V : Type} (card : Key -> nat) (a b : Mixture V) :
  mixture_ok card a -> mixture_ok card b ->
  (forall k, In k (labels (mixtureSum a b)) <->
             In k (map fst (discreteKeys_ (node a))) \/
             In k (map fst (discreteKeys_ (node b)))) /\
  (forall mode,
     valueAt (mixtureSum a b) mode =
     bindO (valueAt (components a) mode) (fun la =>
     bindO (valueAt (components b) mode) (fun lb =>
     Returns (leafFactors la ++ leafFactors lb)))).
Proof.
  intros (Hwa & Hna & Hka) (Hwb & Hnb & Hkb).
  unfold mixtureSum, sumTrees, asGaussianFactorGraphTree. split.
  - intros k. rewrite <- Hka, <- Hkb. split.
    + intros Hin. apply labels_combine_incl in Hin.
      now rewrite !labels_mapLeaves in Hin.
    + intros [Hin|Hin].
      * apply labels_combine_left. now rewrite labels_mapLeaves.
      * apply (labels_combine_right _ card);
          auto using well_formed_mapLeaves, no_repeat_mapLeaves.
        now rewrite labels_mapLeaves.
  - intros mode. rewrite valueAt_combine, !valueAt_mapLeaves.
    destruct (valueAt (components a) mode) as [la|e]; [|reflexivity].
    destruct (valueAt (components b) mode) as [lb|e]; reflexivity.
Qed.

Lemma SumTest_constructed :
  SumTest.mixtureFactorA = Some SumTest.factorA /\
  SumTest.mixtureFactorB = Some SumTest.factorB.
Proof. split; reflexivity. Qed.

Lemma SumTest_keys_ok :
  keys_ok SumTest.cardinality [SumTest.m1] /\
  keys_ok SumTest.cardinality [SumTest.m2].
Proof.
  split; (split; [repeat constructor; intros [] |]);
    intros k n [H|[]]; injection H as <- <-; split; (reflexivity || (simpl; lia)).
Qed.

Lemma mixture_sum_leafwise_witness :
  mixture_ok SumTest.cardinality SumTest.factorA /\
  mixture_ok SumTest.cardinality SumTest.factorB /\
  valueAt (mixtureSum SumTest.factorA SumTest.factorB) SumTest.mode
  = Returns [SumTest.f11; SumTest.f22].
Proof.
  assert (Ha : mixture_ok SumTest.cardinality SumTest.factorA).
  { eapply makeMixture_ok;
      [exact (proj1 SumTest_keys_ok) | exact (proj1 SumTest_constructed)]. }
  assert (Hb : mixture_ok SumTest.cardinality SumTest.factorB).
  { eapply makeMixture_ok;
      [exact (proj2 SumTest_keys_ok) | exact (proj2 SumTest_constructed)]. }
  split; [exact Ha|]. split; [exact Hb|].
  rewrite (proj2 (mixture_sum_leafwise SumTest.cardinality
                    SumTest.factorA SumTest.factorB Ha Hb) SumTest.mode).
  reflexivity.
Defined.

(** TEST(GaussianMixtureFactor, Sum): three keys, one discrete key, and
    the sum at [m1 = 1, m2 = 2] holds [f11] then [f22]. *)
Example SumTest_checks :
  length (keys_ (node SumTest.factorA)) = 3%nat /\
  length (discreteKeys_ (node SumTest.factorA)) = 1%nat /\
  (let sum := addTo (addTo emptySum SumTest.factorA) SumTest.factorB in
   mapO (fun actual => (nth_error actual 0, nth_error actual 1))
        (valueAt sum SumTest.mode)
   = Returns (Some SumTest.f11, Some SumTest.f22)).
Proof. repeat split. Qed.

(** * Errors of a mixture factor *)





Lemma ErrorTest_constructed :
  ErrorTest.mixtureFactor = Some ErrorTest.factor /\
  ErrorTest.unitMixture = Some ErrorTest.unitFactor.
Proof. split; reflexivity. Qed.

(** On the inputs of the error test the residual of the first component
    is [(1, 1)]: among the multiples of the squared norm only one half
    gives it the error 1. *)
Lemma scale_fixed_by_test (scale : Q) :
  scaledError scale (snd ErrorTest.f0) ErrorTest.continuousValues = Returns 1%Q ->
  (scale == 1 # 2)%Q.
Proof.
  assert (Hr : residual (snd ErrorTest.f0) ErrorTest.continuousValues
               = Returns [1%Q; 1%Q]) by (vm_compute; reflexivity).
  unfold scaledError. rewrite Hr. unfold mapO, bindO.
  intros H. injection H as H.
  assert (Hq : Qred (scale * squaredNorm [1%Q; 1%Q]) = 1%Q) by exact H.
  pose proof (Qred_correct (scale * squaredNorm [1%Q; 1%Q])) as Hc.
  rewrite Hq in Hc. clear H Hq Hr.
  destruct scale as [n d].
  unfold Qeq in *. simpl in *. lia.
Qed.

(** A mixture of two components over one binary key: the error tree has
    the two factor errors as its leaves, in order. *)
Lemma errorTree_two_components
    (factorError : JacobianFactor -> VectorValues -> Outcome Q)
    (ck : KeyVector) (m : Key) (f0 f1 : GaussianFactor)
    (x : VectorValues) (e0 e1 : Q) (mf : GaussianMixtureFactor) :
  makeMixture ck [(m, 2%nat)] [f0; f1] = Some mf ->
  factorError (snd f0) x = Returns e0 ->
  factorError (snd f1) x = Returns e1 ->
  errorTree factorError mf x = Returns (Choice m [Leaf e0; Leaf e1]) /\
  error factorError mf (mkHybridValues x [(m, 0%nat)]) = Returns e0 /\
  error factorError mf (mkHybridValues x [(m, 1%nat)]) = Returns e1.
Proof.
  intros Hm H0 H1.
  unfold makeMixture in Hm. simpl in Hm. injection Hm as <-.
  unfold errorTree, error. simpl. rewrite N.eqb_refl.
  unfold plainLeaf. simpl. rewrite H0, H1. simpl. repeat split.
Qed.



(** The error test: its residuals are [(1, 1)] and [(2, 2)], of squared
    norm 2 and 8, and with one half of the squared norm as the error of a
    continuous factor the tree is the expected [{1, 4}] and the error at
    the values of the test is 4. *)
Lemma ErrorTest_regression :
  residual (snd ErrorTest.f0) ErrorTest.continuousValues = Returns [1%Q; 1%Q] /\
  residual (snd ErrorTest.f1) ErrorTest.continuousValues = Returns [2%Q; 2%Q] /\
  squaredNorm [1%Q; 1%Q] = 2%Q /\
  squaredNorm [2%Q; 2%Q] = 8%Q /\
  errorTree (scaledError (1 # 2)) ErrorTest.factor ErrorTest.continuousValues
  = Returns (Choice 1%N [Leaf 1%Q; Leaf 4%Q]) /\
  error (scaledError (1 # 2)) ErrorTest.factor
    (mkHybridValues ErrorTest.continuousValues ErrorTest.discreteValues)
  = Returns 4%Q.
Proof.
  assert (H0 : scaledError (1 # 2) (snd ErrorTest.f0) ErrorTest.continuousValues
               = Returns 1%Q) by (vm_compute; reflexivity).
  assert (H1 : scaledError (1 # 2) (snd ErrorTest.f1) ErrorTest.continuousValues
               = Returns 4%Q) by (vm_compute; reflexivity).
  destruct (errorTree_two_components (scaledError (1 # 2)) [X 1; X 2] 1%N
              ErrorTest.f0 ErrorTest.f1
              ErrorTest.continuousValues 1%Q 4%Q ErrorTest.factor
              (proj1 ErrorTest_constructed) H0 H1) as (Ht & _ & He).
  split; [vm_compute; reflexivity|].
  split; [vm_compute; reflexivity|].
  split; [reflexivity|]. split; [reflexivity|].
  split; [exact Ht | exact He].
Qed.

(** * Pruning a hybrid Bayes net *)

Section MapiMore.

Context {A B C : Type}.

Lemma mapi_from_ext_in (f g : nat -> A -> B) (l : list A) (s : nat) :
(forall i x, In x l -> f i x = g i x) ->
mapi_from f s l = mapi_from g s l.
Proof.
revert s; induction l as [|x l IH]; intros s H; [reflexivity|].
simpl. rewrite (H s x) by now left.
rewrite IH; [reflexivity|]. intros i y Hy. apply H. now right.
Qed.

Lemma mapi_from_mapi_from (f : nat -> B -> C) (g : nat -> A -> B) (l : list A) (s : nat) :
mapi_from f s (mapi_from g s l) = mapi_from (fun i x => f i (g i x)) s l.
Proof.
revert s; induction l as [|x l IH]; intros s; [reflexivity|].
simpl. now rewrite IH.
Qed.

Lemma map_mapi_from (h : B -> C) (g : nat -> A -> B) (l : list A) (s : nat) :
map h (mapi_from g s l) = mapi_from (fun i x => h (g i x)) s l.
Proof.
revert s; induction l as [|x l IH]; intros s; [reflexivity|].
simpl. now rewrite IH.
Qed.

End MapiMore.

Lemma leaves_Choice {V : Type} (k : Key) (bs : list (DecisionTree V)) :
  leaves (Choice k bs) = concat (mapi (fun i b => map (under k i) (leaves b)) bs).
Proof. reflexivity. Qed.

(** Relabelling keeps the assignments and maps each leaf with its own. *)
Lemma leaves_relabel {V W : Type} (t : DecisionTree V) :
  forall f : Assignment -> V -> W,
    leaves (relabel f t) = map (fun pv => (fst pv, f (fst pv) (snd pv))) (leaves t).
Proof.
  induction t as [v|k bs IH] using DecisionTree_ind; intros f; [reflexivity|].
  rewrite Forall_forall in IH.
  change (relabel f (Choice k bs))
    with (Choice k (mapi (fun i b => relabel (fun p => f ((k, i) :: p)) b) bs)).
  rewrite !leaves_Choice. unfold mapi.
  rewrite mapi_from_mapi_from, concat_map, map_mapi_from.
  f_equal. apply mapi_from_ext_in. intros i b Hb.
  rewrite (IH b Hb), !map_map. reflexivity.
Qed.



(** ** Keeping the leaves of highest value *)

Lemma insertByValue_perm (x : Assignment * Q) (l : list (Assignment * Q)) :
  Permutation (insertByValue x l) (x :: l).
Proof.
  induction l as [|y l IH]; simpl; [reflexivity|].
  destruct (Qle_bool (snd y) (snd x)); [reflexivity|].
  rewrite IH. apply perm_swap.
Qed.

Lemma sortByValue_perm (l : list (Assignment * Q)) :
  Permutation (sortByValue l) l.
Proof.
  induction l as [|x l IH]; simpl; [reflexivity|].
  rewrite insertByValue_perm. now constructor.
Qed.








(** ** Sums over leaves *)










(** ** Leaves reached by an assignment *)








(** ** The leaves of a pruned mixture *)

Lemma pruneMixture_leaves (kept discarded : list (Assignment * Q))
    (m : GaussianMixture) :
  leaves (components (pruneMixture kept discarded m))
  = map (fun pv => (fst pv,
                    if wasPruned kept discarded (fst pv) then None else snd pv))
        (leaves (components m)).
Proof.
  unfold pruneMixture. simpl.
  exact (leaves_relabel (components m)
           (fun path leaf => if wasPruned kept discarded path then None else leaf)).
Qed.



(** Where nothing is discarded the mixture is left as it is. *)
Lemma pruneMixture_nothing_discarded (kept : list (Assignment * Q))
    (m : GaussianMixture) :
  leaves (components (pruneMixture kept [] m)) = leaves (components m).
Proof.
  rewrite pruneMixture_leaves. unfold wasPruned. simpl.
  rewrite <- (map_id (leaves (components m))) at 2.
  apply map_ext. now intros [p v].
Qed.

(** ** The number of leaves left in a pruned mixture *)




Lemma discardedLeaves_incl (n : nat) (joint : DecisionTree Q) (x : Assignment * Q) :
  In x (discardedLeaves n joint) -> In x (leaves joint).
Proof.
  intros Hx. unfold discardedLeaves in Hx.
  apply (Permutation_in _ (sortByValue_perm (leaves joint))).
  rewrite <- (firstn_skipn n). apply in_or_app. now right.
Qed.


(** ** The conditionals of the pruned net *)

Lemma deref_app (store ext : Store) (p : Pointer) (c : HybridConditional) :
  deref store p = Some c -> deref (store ++ ext) p = Some c.
Proof.
  destruct p as [|i]; simpl; [discriminate|].
  intros H. rewrite nth_error_app1; [assumption|].
  apply nth_error_Some. congruence.
Qed.






(** ** The pruned net *)


(** With a budget of one and two leaves of equal highest mass only the
    first of them is kept. *)
Example prune_tie :
  map fst (keptLeaves 1 (discreteProduct
             (conditionals (store_ MixtureModel.hbn) (this_ MixtureModel.hbn))))
  = [[(M 0, 0%nat)]].
Proof. reflexivity. Qed.

(** Pruning the mixture-model net to one leaf: the new net points to two
    new conditionals, the mixture has lost its second component and the
    discrete conditional puts all mass on the first mode. *)
Example prune_mixture_model :
  let (after, pruned) := prune MixtureModel.hbn 1 in
  pruned = [3%nat; 4%nat] /\
  deref (store_ after) 3%nat
  = Some (MixtureNode
            (mkMixture (node MixtureModel.gm)
               (Choice (M 0) [Leaf (plainLeaf MixtureModel.c0); Leaf None]))) /\
  deref (store_ after) 4%nat
  = Some (DiscreteNode
            (mkDiscreteConditional [MixtureModel.m]
               (Choice (M 0) [Leaf 1%Q; Leaf 0%Q]))).
Proof. vm_compute. repeat split. Qed.

(** With a budget that discards nothing every mixture keeps all its
    leaves. *)
Example prune_large_budget :
  let (after, pruned) := prune MixtureModel.hbn 2 in
  conditionals (store_ after) pruned
  = [MixtureNode MixtureModel.gm; DiscreteNode MixtureModel.mixing].
Proof. vm_compute. reflexivity. Qed.




(** * The posterior of the two-component mixture model *)

Local Open Scope R_scope.

(** ** Enclosing an exponential by repeated squaring *)

Lemma exp_double_bounds (x l u l' u' : R) :
  0 <= l -> l <= exp x <= u -> l' <= l * l -> u * u <= u' ->
  l' <= exp (2 * x) <= u'.
Proof.
  intros Hl [Hlo Hhi] Hl' Hu'.
  replace (2 * x) with (x + x) by lra. rewrite exp_plus.
  assert (Hlow : l * l <= exp x * exp x)
    by (apply Rmult_le_compat; assumption).
  assert (Hup : exp x * exp x <= u * u)
    by (apply Rmult_le_compat; lra).
  lra.
Qed.

Lemma exp_small_bounds (t : R) :
  0 <= t -> 1 - t <= exp (- t) /\ exp (- t) * (1 + t) <= 1.
Proof.
  intros Ht. split.
  - pose proof (exp_ineq1_le (- t)). lra.
  - pose proof (exp_ineq1_le t) as Hup.
    pose proof (exp_pos (- t)) as Hpos.
    assert (Hone : exp (- t) * exp t = 1).
    { rewrite <- exp_plus. replace (- t + t) with 0 by lra. apply exp_0. }
    rewrite <- Hone. apply Rmult_le_compat_l; lra.
Qed.

Lemma exp_step_0 :
  999816894531250 / 1000000000000000 <= exp (- (3 / 16384)) <= 999816928052725 / 1000000000000000.
Proof.
  destruct (exp_small_bounds (3 / 16384)) as [Hlo Hhi]; [lra|].
  split; lra.
Qed.

Lemma exp_step_1 :
  999633822590112 / 1000000000000000 <= exp (- (3 / 8192)) <= 999633889620788 / 1000000000000000.
Proof.
  replace (- (3 / 8192)) with (2 * - (3 / 16384)) by lra.
  apply (exp_double_bounds _ (999816894531250 / 1000000000000000) (999816928052725 / 1000000000000000));
    [lra | apply exp_step_0 | lra | lra].
Qed.

Lemma exp_step_2 :
  999267779266119 / 1000000000000000 <= exp (- (3 / 4096)) <= 999267913278386 / 1000000000000000.
Proof.
  replace (- (3 / 4096)) with (2 * - (3 / 8192)) by lra.
  apply (exp_double_bounds _ (999633822590112 / 1000000000000000) (999633889620788 / 1000000000000000));
    [lra | apply exp_step_1 | lra | lra].
Qed.

Lemma exp_step_3 :
  998536094679441 / 1000000000000000 <= exp (- (3 / 2048)) <= 998536362507740 / 1000000000000000.
Proof.
  replace (- (3 / 2048)) with (2 * - (3 / 4096)) by lra.
  apply (exp_double_bounds _ (999267779266119 / 1000000000000000) (999267913278386 / 1000000000000000));
    [lra | apply exp_step_2 | lra | lra].
Qed.

Lemma exp_step_4 :
  997074332377669 / 1000000000000000 <= exp (- (3 / 1024)) <= 997074867250189 / 1000000000000000.
Proof.
  replace (- (3 / 1024)) with (2 * - (3 / 2048)) by lra.
  apply (exp_double_bounds _ (998536094679441 / 1000000000000000) (998536362507740 / 1000000000000000));
    [lra | apply exp_step_3 | lra | lra].
Qed.

Lemma exp_step_5 :
  994157224286374 / 1000000000000000 <= exp (- (3 / 512)) <= 994158290901983 / 1000000000000000.
Proof.
  replace (- (3 / 512)) with (2 * - (3 / 1024)) by lra.
  apply (exp_double_bounds _ (997074332377669 / 1000000000000000) (997074867250189 / 1000000000000000));
    [lra | apply exp_step_4 | lra | lra].
Qed.

Lemma exp_step_6 :
  988348586600787 / 1000000000000000 <= exp (- (3 / 256)) <= 988350707369152 / 1000000000000000.
Proof.
  replace (- (3 / 256)) with (2 * - (3 / 512)) by lra.
  apply (exp_double_bounds _ (994157224286374 / 1000000000000000) (994158290901983 / 1000000000000000));
    [lra | apply exp_step_5 | lra | lra].
Qed.

Lemma exp_step_7 :
  976832928635773 / 1000000000000000 <= exp (- (3 / 128)) <= 976837120757104 / 1000000000000000.
Proof.
  replace (- (3 / 128)) with (2 * - (3 / 256)) by lra.
  apply (exp_double_bounds _ (988348586600787 / 1000000000000000) (988350707369152 / 1000000000000000));
    [lra | apply exp_step_6 | lra | lra].
Qed.

(** ** The two likelihoods at the measurement *)

Lemma sqrt_2PI_pos : 0 < sqrt (2 * PI).
Proof. apply sqrt_lt_R0. pose proof PI_RGT_0. lra. Qed.

Lemma density_c0 :
  density MixtureModel.c0 (Q2R 2) = / sqrt (2 * PI) * / 8 * exp (- (1 / 128)).
Proof.
  pose proof sqrt_2PI_pos as Hs.
  unfold density, MixtureModel.c0. simpl mean. simpl sigma.
  replace (Q2R 2) with 2 by (unfold Q2R; simpl; lra).
  replace (Q2R 1) with 1 by (unfold Q2R; simpl; lra).
  replace (Q2R 8) with 8 by (unfold Q2R; simpl; lra).
  replace (- ((2 - 1) ^ 2 / (2 * 8 ^ 2))) with (- (1 / 128)) by (simpl; lra).
  field. lra.
Qed.

Lemma density_c1 :
  density MixtureModel.c1 (Q2R 2)
  = / sqrt (2 * PI) * / 4 * (exp (- (1 / 128)) * exp (- (3 / 128))).
Proof.
  pose proof sqrt_2PI_pos as Hs.
  unfold density, MixtureModel.c1. simpl mean. simpl sigma.
  replace (Q2R 2) with 2 by (unfold Q2R; simpl; lra).
  replace (Q2R 3) with 3 by (unfold Q2R; simpl; lra).
  replace (Q2R 4) with 4 by (unfold Q2R; simpl; lra).
  replace (- ((2 - 3) ^ 2 / (2 * 4 ^ 2))) with (- (1 / 128) + - (3 / 128))
    by (simpl; lra).
  rewrite exp_plus. field. lra.
Qed.

(** The posterior in closed form: the odds of the second mode against the
    first are [2 exp(-3/128)]. *)
Lemma posterior_closed_form :
  exists graph,
    toFactorGraph MixtureModel.hbn MixtureModelPosterior.given = Returns graph /\
    eliminateDiscrete graph
    = Some (Choice (M 0)
              [Leaf (1 / (1 + 2 * exp (- (3 / 128))));
               Leaf (2 * exp (- (3 / 128)) / (1 + 2 * exp (- (3 / 128))))]).
Proof.
  eexists. split; [reflexivity|].
  unfold eliminateDiscrete, normalise, productOf, sumR. simpl.
  rewrite density_c0, density_c1.
  replace (Q2R (1 # 2)) with (1 / 2) by (unfold Q2R; simpl; lra).
  pose proof sqrt_2PI_pos as Hs.
  pose proof (exp_pos (- (1 / 128))) as Ha.
  pose proof (exp_pos (- (3 / 128))) as Hy.
  match goal with
  | |- Some (Choice _ [Leaf ?a; Leaf ?b]) = Some (Choice _ [Leaf ?c; Leaf ?d]) =>
      replace a with c; [replace b with d; [reflexivity|]|]
  end; field; repeat split; try lra.
  all: assert (Hay : 0 < exp (- (1 / 128)) * exp (- (3 / 128)))
         by (apply Rmult_lt_0_compat; assumption); lra.
Qed.

(** C7: for the net [P(z | m)] with means 1 and 3 and sigmas 8 and 4 and
    [P(m) = 0.5/0.5], converting to a factor graph given [z = 2] and
    eliminating gives a discrete posterior within 1e-6 of
    0.338561851224 / 0.661438148776; the mode of the tighter covariance
    is the more probable one. *)
Theorem mixture_model_posterior :
  exists graph p0 p1,
    toFactorGraph MixtureModel.hbn MixtureModelPosterior.given = Returns graph /\
    eliminateDiscrete graph = Some (Choice (M 0) [Leaf p0; Leaf p1]) /\
    Rabs (p0 - MixtureModelPosterior.expected0) < MixtureModelPosterior.tolerance /\
    Rabs (p1 - MixtureModelPosterior.expected1) < MixtureModelPosterior.tolerance /\
    p0 < p1.
Proof.
  destruct posterior_closed_form as (graph & Hgraph & Hposterior).
  exists graph. do 2 eexists.
  split; [exact Hgraph|]. split; [exact Hposterior|].
  unfold MixtureModelPosterior.expected0, MixtureModelPosterior.expected1,
    MixtureModelPosterior.tolerance.
  destruct exp_step_7 as [Hlo Hhi].
  set (y := exp (- (3 / 128))) in *.
  assert (Hden : 0 < 1 + 2 * y) by lra.
  assert (Hp0 : 338561370764 / 1000000000000 < 1 / (1 + 2 * y)
                < 338562331802 / 1000000000000).
  { split.
    - apply (Rmult_lt_reg_r (1 + 2 * y)); [assumption|].
      unfold Rdiv at 2. rewrite Rmult_1_l, Rinv_l by lra. lra.
    - apply (Rmult_lt_reg_r (1 + 2 * y)); [assumption|].
      unfold Rdiv at 1. rewrite Rmult_1_l, Rinv_l by lra. lra. }
  assert (Hsum : 2 * y / (1 + 2 * y) = 1 - 1 / (1 + 2 * y)) by (field; lra).
  rewrite Hsum.
  repeat split; try (apply Rabs_def1; lra); lra.
Qed.

(** TEST(GaussianMixtureFactor, GaussianMixtureModel): with the same noise
    for both components the evidence [z = 2] is symmetric and the
    posterior stays at one half each. *)
Example posterior_equal_noise :
  exists graph,
    toFactorGraph MixtureModel.hbnEqualNoise MixtureModelPosterior.given
    = Returns graph /\
    eliminateDiscrete graph = Some (Choice (M 0) [Leaf (1 / 2); Leaf (1 / 2)]).
Proof.
  eexists. split; [reflexivity|].
  unfold eliminateDiscrete, normalise, productOf, sumR. simpl.
  unfold density. simpl mean. simpl sigma.
  replace (Q2R (1 # 2)) with (1 / 2) by (unfold Q2R; simpl; lra).
  replace (Q2R 1) with 1 by (unfold Q2R; simpl; lra).
  replace (Q2R 2) with 2 by (unfold Q2R; simpl; lra).
  replace (Q2R 3) with 3 by (unfold Q2R; simpl; lra).
  replace (- ((2 - 3) ^ 2 / (2 * 2 ^ 2))) with (- ((2 - 1) ^ 2 / (2 * 2 ^ 2)))
    by (simpl; lra).
  pose proof sqrt_2PI_pos as Hs.
  pose proof (exp_pos (- ((2 - 1) ^ 2 / (2 * 2 ^ 2)))) as Ha.
  set (a := exp (- ((2 - 1) ^ 2 / (2 * 2 ^ 2)))) in *.
  match goal with
  | |- Some (Choice _ [Leaf ?p; Leaf ?q]) = _ =>
      replace p with (1 / 2); [replace q with (1 / 2); [reflexivity|]|]
  end; field; repeat split; lra.
Qed.

(** * Further properties of HybridFactor.cpp *)

Local Close Scope R_scope.

(** X1: [CollectKeys] on two key vectors returns the first followed by the
    second, whatever they hold: its size is the sum of the sizes, and an
    empty vector on either side leaves the other unchanged. *)
Theorem CollectKeys_vectors_concatenation (keys1 keys2 : KeyVector) :
  CollectKeys_vectors keys1 keys2 = keys1 ++ keys2 /\
  size (CollectKeys_vectors keys1 keys2) = size keys1 + size keys2 /\
  CollectKeys_vectors [] keys2 = keys2 /\
  CollectKeys_vectors keys1 [] = keys1.
Proof.
  assert (H : forall a b : KeyVector, CollectKeys_vectors a b = a ++ b).
  { intros a b. unfold CollectKeys_vectors.
    now rewrite !copy_back_inserter_app. }
  rewrite !H. repeat split.
  - unfold size. rewrite length_app. lia.
  - apply app_nil_r.
Qed.

(** X2: [CollectDiscreteKeys] returns the first list of discrete keys
    followed by the second, every cardinality kept and nothing merged; the
    identifiers of the result are what [CollectKeys] gives on the
    identifiers of the two lists. *)
Theorem CollectDiscreteKeys_concatenation (key1 key2 : DiscreteKeys) :
  CollectDiscreteKeys key1 key2 = key1 ++ key2 /\
  size (CollectDiscreteKeys key1 key2) = size key1 + size key2 /\
  map fst (CollectDiscreteKeys key1 key2)
  = CollectKeys_vectors (map fst key1) (map fst key2).
Proof.
  assert (H : CollectDiscreteKeys key1 key2 = key1 ++ key2).
  { unfold CollectDiscreteKeys. now rewrite !copy_back_inserter_app. }
  rewrite H. repeat split.
  - unfold size. rewrite length_app. lia.
  - unfold CollectKeys_vectors. rewrite !copy_back_inserter_app.
    now rewrite map_app.
Qed.

(** X3: the three collecting functions compose: collecting the discrete
    keys first and then the keys gives the same key vector as collecting
    the keys of the first list and appending the identifiers of the
    second; and a key vector collected in two steps is the one collected
    at once. *)
Theorem CollectKeys_compose (keys1 keys2 : KeyVector) (key1 key2 : DiscreteKeys) :
  CollectKeys keys1 (CollectDiscreteKeys key1 key2)
  = CollectKeys_vectors (CollectKeys keys1 key1) (CollectKeys [] key2) /\
  CollectKeys (CollectKeys_vectors keys1 keys2) key1
  = CollectKeys_vectors keys1 (CollectKeys keys2 key1).
Proof.
  unfold CollectKeys_vectors, CollectDiscreteKeys.
  rewrite !CollectKeys_app, !copy_back_inserter_app. simpl.
  rewrite map_app, !app_assoc. split; reflexivity.
Qed.

(** X4: whichever constructor builds a node, its key vector is its
    continuous keys followed by the identifiers of its discrete keys, and
    has as many entries as the two key lists together. *)
Theorem built_keys_invariant (c : Construction) :
  keys_ (built c)
  = continuousKeys_ (built c) ++ map fst (discreteKeys_ (built c)) /\
  size (keys_ (built c))
  = size (continuousKeys_ (built c)) + size (discreteKeys_ (built c)).
Proof.
  assert (H : keys_ (built c)
              = continuousKeys_ (built c) ++ map fst (discreteKeys_ (built c))).
  { destruct c as [keys|ck dk|dk]; simpl.
    - now rewrite app_nil_r.
    - apply CollectKeys_app.
    - apply CollectKeys_app. }
  split; [exact H|]. rewrite H. unfold size.
  rewrite length_app, length_map. apply Nat2Z.inj_add.
Qed.

(** X5: whichever constructor builds a node, a node tagged [Continuous]
    has no discrete keys and a node tagged [Discrete] has no continuous
    keys. *)
Theorem built_category_invariant (c : Construction) :
  (category_ (built c) = Continuous -> discreteKeys_ (built c) = []) /\
  (category_ (built c) = Discrete -> continuousKeys_ (built c) = []).
Proof.
  destruct c as [keys|ck dk|dk]; simpl; split; try reflexivity; try discriminate.
  - destruct ck, dk; simpl; try discriminate; reflexivity.
  - destruct ck, dk; simpl; try discriminate; reflexivity.
Qed.

Lemma built_category_invariant_witness :
  discreteKeys_ (built (FromContinuousDiscrete [X 1] [])) = [] /\
  continuousKeys_ (built (FromContinuousDiscrete [] [(M 0, 2%nat)])) = [].
Proof.
  split.
  - apply (proj1 (built_category_invariant (FromContinuousDiscrete [X 1] []))).
    reflexivity.
  - apply (proj2 (built_category_invariant
                    (FromContinuousDiscrete [] [(M 0, 2%nat)]))).
    reflexivity.
Defined.

(** X6: the two-argument constructor tags a node [Discrete] exactly when
    only the discrete keys are non-empty, [Continuous] exactly when only
    the continuous keys are non-empty, and [Hybrid] in the two remaining
    cases: both key lists non-empty, or both empty. *)
Theorem two_argument_category_cases (ck : KeyVector) (dk : DiscreteKeys) :
  (category_ (HybridFactor_continuous_discrete ck dk) = Discrete
   <-> ck = [] /\ dk <> []) /\
  (category_ (HybridFactor_continuous_discrete ck dk) = Continuous
   <-> ck <> [] /\ dk = []) /\
  (category_ (HybridFactor_continuous_discrete ck dk) = Hybrid
   <-> (ck <> [] /\ dk <> []) \/ (ck = [] /\ dk = [])).
Proof.
  destruct ck as [|k ck], dk as [|d dk]; simpl; intuition congruence.
Qed.

(** X7: the constructor from discrete keys builds the same node as the
    two-argument constructor given no continuous keys exactly when the
    discrete keys are non-empty; on the empty list the first tags the node
    [Discrete] and the second [Hybrid]. *)
Theorem discrete_constructor_agreement (dk : DiscreteKeys) :
  (HybridFactor_discrete dk = HybridFactor_continuous_discrete [] dk
   <-> dk <> []) /\
  category_ (HybridFactor_discrete []) = Discrete /\
  category_ (HybridFactor_continuous_discrete [] []) = Hybrid.
Proof.
  split; [|split; reflexivity].
  destruct dk as [|d dk]; split.
  - intros H. apply (f_equal category_) in H. discriminate.
  - intros H. now contradiction H.
  - discriminate.
  - reflexivity.
Qed.


(** ** HybridFactor::equals *)

Lemma HybridCategory_eqb_eq (a b : HybridCategory) :
  HybridCategory_eqb a b = true <-> a = b.
Proof. destruct a, b; simpl; split; intros H; (reflexivity || discriminate). Qed.

Lemma vector_eqb_eq {A : Type} (eqb : A -> A -> bool) :
  (forall x y, eqb x y = true <-> x = y) ->
  forall u v, vector_eqb eqb u v = true <-> u = v.
Proof.
  intros Heqb u. induction u as [|x u IH]; intros [|y v]; simpl;
    try (split; [reflexivity || discriminate | reflexivity || discriminate]).
  rewrite andb_true_iff, Heqb, IH. split.
  - intros [-> ->]. reflexivity.
  - intros H. injection H as -> ->. split; reflexivity.
Qed.

Lemma DiscreteKey_eqb_eq (a b : DiscreteKey) :
  DiscreteKey_eqb a b = true <-> a = b.
Proof.
  destruct a as [k n], b as [k' n']. unfold DiscreteKey_eqb. simpl.
  rewrite andb_true_iff, N.eqb_eq, Nat.eqb_eq. split.
  - intros [-> ->]. reflexivity.
  - intros H. injection H as -> ->. split; reflexivity.
Qed.

(** [equals] is the conjunction of the base comparison and the equality
    of the three members. *)
Lemma equals_true_iff (Base_equals : KeyVector -> KeyVector -> Q -> bool)
    (f g : HybridFactor) (tol : Q) :
  equals Base_equals f g tol = true <->
  Base_equals (keys_ f) (keys_ g) tol = true /\
  category_ f = category_ g /\
  continuousKeys_ f = continuousKeys_ g /\
  discreteKeys_ f = discreteKeys_ g.
Proof.
  unfold equals, dynamic_cast_This.
  rewrite !andb_true_iff, HybridCategory_eqb_eq.
  rewrite (vector_eqb_eq N.eqb N.eqb_eq).
  rewrite (vector_eqb_eq DiscreteKey_eqb DiscreteKey_eqb_eq).
  tauto.
Qed.

Lemma built_keys (c : Construction) :
  keys_ (built c)
  = continuousKeys_ (built c) ++ map fst (discreteKeys_ (built c)).
Proof.
  destruct c as [keys|ck dk|dk]; simpl.
  - now rewrite app_nil_r.
  - apply CollectKeys_app.
  - apply CollectKeys_app.
Qed.

Lemma HybridFactor_eq (f g : HybridFactor) :
  keys_ f = keys_ g -> category_ f = category_ g ->
  continuousKeys_ f = continuousKeys_ g -> discreteKeys_ f = discreteKeys_ g ->
  f = g.
Proof. destruct f, g; simpl; intros -> -> -> ->; reflexivity. Qed.

(** The comparison of key vectors, an instance of the base comparison. *)
Lemma keys_eqb_eq (a b : KeyVector) (tol : Q) :
  (fun (u v : KeyVector) (_ : Q) => vector_eqb N.eqb u v) a b tol = true <-> a = b.
Proof. apply (vector_eqb_eq N.eqb N.eqb_eq). Qed.

(** X9: whatever the base class compares, two nodes that [equals] accepts
    have the same category, the same continuous keys and the same discrete
    keys, cardinalities included, for every tolerance. *)
Theorem equals_members (Base_equals : KeyVector -> KeyVector -> Q -> bool)
    (f g : HybridFactor) (tol : Q) :
  equals Base_equals f g tol = true ->
  category_ f = category_ g /\
  continuousKeys_ f = continuousKeys_ g /\
  discreteKeys_ f = discreteKeys_ g.
Proof. intros H. apply equals_true_iff in H. tauto. Qed.

Lemma equals_members_witness :
  equals (fun _ _ _ => true) printing_test_node printing_test_node 0%Q = true /\
  category_ printing_test_node = category_ printing_test_node.
Proof.
  split; [reflexivity|].
  apply (equals_members (fun _ _ _ => true) printing_test_node
           printing_test_node 0%Q).
  reflexivity.
Defined.

(** Two nodes with the same keys whose discrete key differs in
    cardinality are not equal. *)
Example equals_sees_cardinality :
  equals (fun u v _ => vector_eqb N.eqb u v)
    (HybridFactor_continuous_discrete [X 1] [(M 0, 2%nat)])
    (HybridFactor_continuous_discrete [X 1] [(M 0, 3%nat)]) 0%Q = false.
Proof. reflexivity. Qed.

(** X10: when the base class accepts exactly equal key vectors, [equals]
    accepts exactly equal nodes, and the tolerance plays no part. *)
Theorem equals_iff_eq (Base_equals : KeyVector -> KeyVector -> Q -> bool)
    (f g : HybridFactor) (tol : Q) :
  (forall a b t, Base_equals a b t = true <-> a = b) ->
  (equals Base_equals f g tol = true <-> f = g).
Proof.
  intros Hbase. rewrite equals_true_iff, Hbase. split.
  - intros (Hk & Hc & Hck & Hdk). now apply HybridFactor_eq.
  - intros ->. repeat split.
Qed.

Lemma equals_iff_eq_witness :
  equals (fun u v _ => vector_eqb N.eqb u v)
    printing_test_node printing_test_node (1 # 1000)%Q = true.
Proof.
  apply (equals_iff_eq (fun u v _ => vector_eqb N.eqb u v)
           printing_test_node printing_test_node (1 # 1000)%Q keys_eqb_eq).
  reflexivity.
Defined.

(** X11: for two nodes made by the constructors it is enough that the
    base class accepts a key vector against itself: [equals] then accepts
    them exactly when they are the same node, because their key vectors
    follow from their key lists. *)
Theorem equals_built (Base_equals : KeyVector -> KeyVector -> Q -> bool)
    (c c' : Construction) (tol : Q) :
  (forall ks t, Base_equals ks ks t = true) ->
  (equals Base_equals (built c) (built c') tol = true <-> built c = built c').
Proof.
  intros Hrefl. rewrite equals_true_iff. split.
  - intros (_ & Hc & Hck & Hdk). apply HybridFactor_eq; try assumption.
    now rewrite !built_keys, Hck, Hdk.
  - intros ->. repeat split. apply Hrefl.
Qed.

Lemma equals_built_witness :
  equals (fun _ _ _ => true)
    (built (FromDiscrete [(M 0, 2%nat)]))
    (built (FromContinuousDiscrete [] [(M 0, 2%nat)])) 0%Q = true.
Proof.
  apply (equals_built (fun _ _ _ => true) (FromDiscrete [(M 0, 2%nat)])
           (FromContinuousDiscrete [] [(M 0, 2%nat)]) 0%Q).
  - intros ks t. reflexivity.
  - reflexivity.
Defined.

(** Nodes without any key made by different constructors are told
    apart. *)
Example equals_empty_nodes :
  equals (fun u v _ => vector_eqb N.eqb u v)
    (built (FromKeys [])) (built (FromContinuousDiscrete [] [])) 0%Q = false /\
  equals (fun u v _ => vector_eqb N.eqb u v)
    (built (FromDiscrete [])) (built (FromContinuousDiscrete [] [])) 0%Q = false.
Proof. split; reflexivity. Qed.

(** ** What print leaves alone *)

Section PrintFrame.

Variable formatter : KeyFormatter.
Variable continuousKeys : KeyVector.
Variable discreteKeys : DiscreteKeys.

Lemma print_continuous_loop_prefix (fuel : nat) :
forall (c : Z) (before out : ostream),
  print_continuous_loop formatter continuousKeys discreteKeys fuel c
    (before ++ out)%string
  = (before ++ print_continuous_loop formatter continuousKeys discreteKeys
                 fuel c out)%string.
Proof.
induction fuel as [|fuel IH]; intros c before out; [reflexivity|].
cbn [print_continuous_loop].
destruct (c <? size continuousKeys); [|reflexivity].
destruct (at_ continuousKeys c) as [k|]; [|reflexivity].
unfold put.
destruct (c <? size_t_sub (size continuousKeys) 1);
  rewrite !append_assoc; apply IH.
Qed.

Lemma print_discrete_loop_prefix (fuel : nat) :
forall (d : Z) (before out : ostream),
  print_discrete_loop formatter discreteKeys fuel d (before ++ out)%string
  = (before ++ print_discrete_loop formatter discreteKeys fuel d out)%string.
Proof.
induction fuel as [|fuel IH]; intros d before out; [reflexivity|].
cbn [print_discrete_loop].
destruct (d <? size discreteKeys); [|reflexivity].
destruct (at_ discreteKeys d) as [k|]; [|reflexivity].
unfold put.
destruct (d <? size_t_sub (size discreteKeys) 1);
  rewrite ?append_assoc; apply IH.
Qed.

End PrintFrame.

(** X12: [print] only appends: whatever was written to the stream before
    the call is still there, unchanged, in front of what the call writes,
    and what the call writes does not depend on it. *)
Theorem print_appends (f : HybridFactor) (s : string) (formatter : KeyFormatter)
    (before out : ostream) :
  print f s formatter (before ++ out)%string
  = (before ++ print f s formatter out)%string.
Proof.
  unfold print, put.
  rewrite !append_assoc.
  rewrite print_continuous_loop_prefix, print_discrete_loop_prefix.
  now rewrite append_assoc.
Qed.

Lemma at_map {A B : Type} (g : A -> B) (v : list A) (i : Z) :
  at_ (map g v) i = option_map g (at_ v i).
Proof.
  unfold at_. destruct (i <? 0); [reflexivity|]. apply nth_error_map.
Qed.

(** The second loop reads the identifiers of the discrete keys only. *)
Lemma print_discrete_loop_identifiers (formatter : KeyFormatter)
    (dk dk' : DiscreteKeys) (fuel : nat) :
  map fst dk = map fst dk' ->
  forall (d : Z) (out : ostream),
    print_discrete_loop formatter dk fuel d out
    = print_discrete_loop formatter dk' fuel d out.
Proof.
  intros Hids.
  assert (Hsize : size dk = size dk').
  { pose proof (f_equal (@length Key) Hids) as Hlen.
    rewrite !length_map in Hlen. unfold size. f_equal. exact Hlen. }
  assert (Hat : forall d, option_map fst (at_ dk d) = option_map fst (at_ dk' d)).
  { intros d. pose proof (f_equal (fun v => at_ v d) Hids) as H.
    cbv beta in H. now rewrite !at_map in H. }
  induction fuel as [|fuel IH]; intros d out; [reflexivity|].
  cbn [print_discrete_loop]. rewrite <- Hsize.
  destruct (d <? size dk); [|reflexivity].
  specialize (Hat d).
  destruct (at_ dk d) as [k|], (at_ dk' d) as [k'|]; try discriminate; [|reflexivity].
  simpl in Hat. injection Hat as ->.
  destruct (d <? size_t_sub (size dk) 1); apply IH.
Qed.

(** The first loop reads the number of discrete keys only. *)
Lemma print_continuous_loop_size (formatter : KeyFormatter) (ck : KeyVector)
    (dk dk' : DiscreteKeys) (fuel : nat) :
  size dk = size dk' ->
  forall (c : Z) (out : ostream),
    print_continuous_loop formatter ck dk fuel c out
    = print_continuous_loop formatter ck dk' fuel c out.
Proof.
  intros Hsize.
  induction fuel as [|fuel IH]; intros c out; [reflexivity|].
  cbn [print_continuous_loop]. rewrite <- Hsize.
  destruct (c <? size ck); [|reflexivity].
  destruct (at_ ck c) as [k|]; [|reflexivity].
  destruct (c <? size_t_sub (size ck) 1); apply IH.
Qed.

(** X13: what [print] writes depends on the category, the continuous keys
    and the identifiers of the discrete keys only: two nodes that agree on
    these print the same text, whatever their cardinalities and whatever
    the key vector of their base class. *)
Theorem print_ignores_cardinalities (f g : HybridFactor) (s : string)
    (formatter : KeyFormatter) (cout : ostream) :
  category_ f = category_ g ->
  continuousKeys_ f = continuousKeys_ g ->
  map fst (discreteKeys_ f) = map fst (discreteKeys_ g) ->
  print f s formatter cout = print g s formatter cout.
Proof.
  intros Hcat Hck Hids. unfold print.
  assert (Hlen : length (discreteKeys_ f) = length (discreteKeys_ g)).
  { pose proof (f_equal (@length Key) Hids) as Hlen.
    now rewrite !length_map in Hlen. }
  assert (Hsize : size (discreteKeys_ f) = size (discreteKeys_ g))
    by (unfold size; f_equal; exact Hlen).
  rewrite Hcat, Hck, Hlen.
  rewrite (print_continuous_loop_size formatter _ _ _ _ Hsize).
  now rewrite (print_discrete_loop_identifiers formatter _ _ _ Hids).
Qed.

Lemma print_ignores_cardinalities_witness :
  print (HybridFactor_continuous_discrete [X 1] [(M 0, 2%nat)]) ""%string
    DefaultKeyFormatter ""%string
  = print (mkHybridFactor [] Hybrid [(M 0, 5%nat)] [X 1]) ""%string
      DefaultKeyFormatter ""%string.
Proof.
  apply (print_ignores_cardinalities
           (HybridFactor_continuous_discrete [X 1] [(M 0, 2%nat)])
           (mkHybridFactor [] Hybrid [(M 0, 5%nat)] [X 1])
           ""%string DefaultKeyFormatter ""%string); reflexivity.
Defined.

(** * Adding conditionals to a HybridBayesNet *)

Lemma conditionals_app (store : Store) (net1 net2 : HybridBayesNet) :
  conditionals store (net1 ++ net2)
  = conditionals store net1 ++ conditionals store net2.
Proof. unfold conditionals. apply flat_map_app. Qed.

Lemma conditionals_store_app (store ext : Store) (net : HybridBayesNet) :
  (forall p, In p net -> (p <= length store)%nat) ->
  conditionals (store ++ ext) net = conditionals store net.
Proof.
  intros Hclosed. unfold conditionals.
  induction net as [|p net IH]; [reflexivity|].
  simpl. rewrite IH by (intros q Hq; apply Hclosed; now right).
  f_equal. destruct p as [|i]; [reflexivity|]. simpl.
  assert (Hi : (S i <= length store)%nat) by (apply Hclosed; now left).
  rewrite nth_error_app1 by lia. reflexivity.
Qed.

Lemma conditionals_fresh (store : Store) (c : HybridConditional) :
  conditionals (store ++ [c]) [S (length store)] = [c].
Proof.
  unfold conditionals, deref. simpl.
  rewrite nth_error_app2 by lia. now rewrite Nat.sub_diag.
Qed.

Lemma push_back_move_closed (s : State) (c : HybridConditional) :
  closed s ->
  closed (HybridBayesNet_push_back_move s c) /\
  conditionals (store_ (HybridBayesNet_push_back_move s c))
               (this_ (HybridBayesNet_push_back_move s c))
  = conditionals (store_ s) (this_ s) ++ [c].
Proof.
  intros Hclosed. unfold HybridBayesNet_push_back_move, allocate, push_back.
  simpl. split.
  - intros p Hp. simpl in *. rewrite length_app. simpl.
    apply in_app_or in Hp. destruct Hp as [Hp|[<-|[]]]; [|lia].
    apply Hclosed in Hp. lia.
  - rewrite conditionals_app, conditionals_fresh.
    now rewrite conditionals_store_app.
Qed.

(** X14: [push_back] of a conditional by value puts it last: in a net all
    of whose pointers are null or point into the store, the conditionals
    afterwards are those before, in order, followed by the new one; the
    net has one more entry, every conditional already in the store is
    untouched, and again all pointers are null or point into the store. *)
Theorem push_back_move_appends (s : State) (c : HybridConditional) :
  closed s ->
  let s' := HybridBayesNet_push_back_move s c in
  conditionals (store_ s') (this_ s') = conditionals (store_ s) (this_ s) ++ [c] /\
  length (this_ s') = S (length (this_ s)) /\
  (forall p c0, deref (store_ s) p = Some c0 -> deref (store_ s') p = Some c0) /\
  closed s'.
Proof.
  intros Hclosed s'.
  destruct (push_back_move_closed s c Hclosed) as [Hclosed' Hcs].
  split; [exact Hcs|]. split; [|split; [|exact Hclosed']].
  - subst s'. unfold HybridBayesNet_push_back_move, allocate, push_back. simpl.
    rewrite length_app. simpl. lia.
  - intros p c0 Hp. subst s'.
    unfold HybridBayesNet_push_back_move, allocate. simpl.
    now apply deref_app.
Qed.

Lemma MixtureModel_closed : closed MixtureModel.hbn.
Proof. intros p [<-|[<-|[]]]; simpl; lia. Qed.

Lemma push_back_move_appends_witness :
  closed MixtureModel.hbn /\
  conditionals
    (store_ (HybridBayesNet_push_back_move MixtureModel.hbn
               (GaussianNode MixtureModel.c0)))
    (this_ (HybridBayesNet_push_back_move MixtureModel.hbn
              (GaussianNode MixtureModel.c0)))
  = [MixtureNode MixtureModel.gm; DiscreteNode MixtureModel.mixing;
     GaussianNode MixtureModel.c0].
Proof.
  split; [exact MixtureModel_closed|].
  apply (push_back_move_appends MixtureModel.hbn (GaussianNode MixtureModel.c0)
           MixtureModel_closed).
Defined.

(** X15: [push_back] of a shared pointer shares the conditional: the
    store is left as it is, the pointer itself becomes the last entry of
    the net, and the conditionals of the net are those before followed by
    the conditional pointed to; a pointer to nothing adds an entry but no
    conditional. *)
Theorem push_back_shares (s : State) (p : Pointer) :
  let s' := HybridBayesNet_push_back s p in
  store_ s' = store_ s /\
  this_ s' = this_ s ++ [p] /\
  (forall c, deref (store_ s) p = Some c ->
     conditionals (store_ s') (this_ s') = conditionals (store_ s) (this_ s) ++ [c]) /\
  (deref (store_ s) p = None ->
     conditionals (store_ s') (this_ s') = conditionals (store_ s) (this_ s)).
Proof.
  intros s'. subst s'. unfold HybridBayesNet_push_back, push_back. simpl.
  split; [reflexivity|]. split; [reflexivity|]. split.
  - intros c Hc. rewrite conditionals_app. unfold conditionals at 2. simpl.
    now rewrite Hc.
  - intros Hnone. rewrite conditionals_app. unfold conditionals at 2. simpl.
    rewrite Hnone. now rewrite app_nil_r.
Qed.

Lemma push_back_shares_witness :
  conditionals
    (store_ (HybridBayesNet_push_back MixtureModel.hbn 1%nat))
    (this_ (HybridBayesNet_push_back MixtureModel.hbn 1%nat))
  = [MixtureNode MixtureModel.gm; DiscreteNode MixtureModel.mixing;
     MixtureNode MixtureModel.gm].
Proof.
  apply (proj1 (proj2 (proj2 (push_back_shares MixtureModel.hbn 1%nat)))).
  reflexivity.
Defined.

Section AddConditionalProperties.

Variable CONDITIONAL : Type.
Variable convert : CONDITIONAL -> HybridConditional.

Lemma emplace_back_as_move (s : State) (c : CONDITIONAL) :
emplace_back CONDITIONAL convert s c
= HybridBayesNet_push_back_move s (convert c).
Proof. reflexivity. Qed.

(** X16: in a net all of whose pointers are null or point into the
  store, conditionals added one after the other by [emplace_back] end up
  in the net in the order of the calls, after those already there;
  starting from the empty net, the net holds exactly the conditionals
  added, each converted to a HybridConditional. *)
Theorem emplace_back_sequence (cs : list CONDITIONAL) (s : State) :
closed s ->
let s' := fold_left (emplace_back CONDITIONAL convert) cs s in
conditionals (store_ s') (this_ s')
= conditionals (store_ s) (this_ s) ++ map convert cs /\
closed s'.
Proof.
revert s. induction cs as [|c cs IH]; intros s Hclosed; simpl.
- split; [now rewrite app_nil_r | exact Hclosed].
- rewrite emplace_back_as_move.
  destruct (push_back_move_closed s (convert c) Hclosed) as [Hclosed' Hcs].
  destruct (IH _ Hclosed') as [Hrest Hfinal].
  split; [|exact Hfinal].
  rewrite Hrest, Hcs, <- app_assoc. reflexivity.
Qed.

(** The two template overloads of [push_back], for a shared pointer
  to a conditional and for a conditional passed by reference, leave the
  net in the state [emplace_back] leaves it in; the address at which the
  copy of the conditional is made does not show. *)
Lemma push_back_overloads_agree (s : State) (address address' : nat)
  (c : CONDITIONAL) :
HybridBayesNet_push_back_shared CONDITIONAL convert s (address, c)
= emplace_back CONDITIONAL convert s c /\
HybridBayesNet_push_back_value CONDITIONAL convert address' s c
= emplace_back CONDITIONAL convert s c.
Proof. split; reflexivity. Qed.

End AddConditionalProperties.

Lemma emplace_back_sequence_witness :
  closed (emptyNet []) /\
  conditionals
    (store_ (fold_left (emplace_back HybridConditional (fun c => c))
               [MixtureNode MixtureModel.gm; DiscreteNode MixtureModel.mixing]
               (emptyNet [])))
    (this_ (fold_left (emplace_back HybridConditional (fun c => c))
              [MixtureNode MixtureModel.gm; DiscreteNode MixtureModel.mixing]
              (emptyNet [])))
  = [MixtureNode MixtureModel.gm; DiscreteNode MixtureModel.mixing].
Proof.
  assert (Hclosed : closed (emptyNet [])) by (intros p []).
  split; [exact Hclosed|].
  apply (emplace_back_sequence HybridConditional (fun c => c)
           [MixtureNode MixtureModel.gm; DiscreteNode MixtureModel.mixing]
           (emptyNet []) Hclosed).
Defined.

(** The net of the mixture-model tests as the tests build it:
    [hbn.emplace_back(gm); hbn.emplace_back(mixing);]. *)
Example MixtureModel_built :
  emplace_back DiscreteConditional DiscreteNode
    (emplace_back GaussianMixture MixtureNode (emptyNet []) MixtureModel.gm)
    MixtureModel.mixing
  = MixtureModel.hbn.
Proof. reflexivity. Qed.
